(** * Ichimoku Cloud indicator (KLineChart): calculator and cloud renderer

    A shallow embedding of [src/extension/indicator/ichimokuCloud.ts].

    - JavaScript numbers are kept abstract: the development is parametric
      in a carrier [num] with the operations the source uses, collected in
      the class [NumOps]: addition, division, the constant [2] and the two
      comparisons [<] (with [a > b] read as [b < a]) and [>=].  Nothing is
      assumed about them except where a lemma says so ([<] a strict
      order for the window extrema, [>=] reflexive for ties).  The
      rationals give a concrete instance to compute with.
    - Array indices, periods and the displacement are integers ([Z]);
      reading an array outside its bounds yields [undefined], modelled by
      [None]; reading or writing a property of [undefined] raises the
      engine's [TypeError].
    - [calc] runs in a small state-and-exception monad over a heap that
      holds the two arrays the function touches: the caller's [dataList]
      and the freshly allocated [result].
    - [draw] is a left-to-right scan with an explicit state; the scan
      records its calls to [drawCloudPolygon], and the canvas is the list
      of drawing commands those calls issue. *)

From stdpp Require Import base tactics option list list_numbers strings.
From Stdlib Require Import ZArith QArith Lia.

Local Open Scope Z_scope.

(** ** Array access *)

(** [a[i]] for an integer [i]: [undefined] outside [0 .. length-1]. *)
Definition getZ {A : Type} (l : list A) (i : Z) : option A :=
  if decide (0 ≤ i) then l !! Z.to_nat i else None.

(** In-place update of the element at [i], when there is one. *)
Definition alterZ {A : Type} (f : A → A) (i : Z) (l : list A) : list A :=
  if decide (0 ≤ i) then alter f (Z.to_nat i) l else l.

(** Exceptions.  The source has no [throw] statement; the only exception a
    run can raise is the engine's [TypeError] (property access on
    [undefined]).  [InvalidParameter] is the error named by the
    specification's taxonomy; it is listed so that statements can speak
    about it. *)
Inductive error : Type :=
  | TypeError
  | InvalidParameter.

(** ** Numbers *)

Class NumOps (num : Type) : Type := mkNumOps {
  add : num → num → num;
  div : num → num → num;
  two : num;
  (** [lt a b] is [a < b], and also [b > a] *)
  lt : num → num → bool;
  (** [ge a b] is [a >= b] *)
  ge : num → num → bool
}.

(** ** Data model *)

(** The fields of [KLineData] the indicator reads. *)
Record KLineData (num : Type) : Type := mkKLineData {
  high : num;
  low : num;
  close : num
}.
Arguments mkKLineData {num} _ _ _.
Arguments high {num} _.
Arguments low {num} _.
Arguments close {num} _.

(** [interface IchimokuCloud]: five optional numbers. *)
Record IchimokuCloud (num : Type) : Type := mkIchimokuCloud {
  tenkan : option num;
  kijun : option num;
  chikou : option num;
  senkou1 : option num;
  senkou2 : option num
}.
Arguments mkIchimokuCloud {num} _ _ _ _ _.
Arguments tenkan {num} _.
Arguments kijun {num} _.
Arguments chikou {num} _.
Arguments senkou1 {num} _.
Arguments senkou2 {num} _.

(** The object literal [{}]. *)
Definition empty_point {num : Type} : IchimokuCloud num :=
  mkIchimokuCloud None None None None None.

Definition set_tenkan {num : Type} (v : num) (p : IchimokuCloud num) :=
  mkIchimokuCloud (Some v) (kijun p) (chikou p) (senkou1 p) (senkou2 p).
Definition set_kijun {num : Type} (v : num) (p : IchimokuCloud num) :=
  mkIchimokuCloud (tenkan p) (Some v) (chikou p) (senkou1 p) (senkou2 p).
Definition set_chikou {num : Type} (v : num) (p : IchimokuCloud num) :=
  mkIchimokuCloud (tenkan p) (kijun p) (Some v) (senkou1 p) (senkou2 p).
Definition set_senkou1 {num : Type} (v : num) (p : IchimokuCloud num) :=
  mkIchimokuCloud (tenkan p) (kijun p) (chikou p) (Some v) (senkou2 p).
Definition set_senkou2 {num : Type} (v : num) (p : IchimokuCloud num) :=
  mkIchimokuCloud (tenkan p) (kijun p) (chikou p) (senkou1 p) (Some v).

(** ** The heap and its monad *)

Record heap (num : Type) : Type := mkHeap {
  dataList : list (KLineData num);
  result : list (IchimokuCloud num)
}.
Arguments mkHeap {num} _ _.
Arguments dataList {num} _.
Arguments result {num} _.

Inductive outcome (num A : Type) : Type :=
  | Ok (a : A) (h : heap num)
  | Throw (e : error) (h : heap num).
Arguments Ok {num A} a h.
Arguments Throw {num A} e h.

Definition M (num A : Type) : Type := heap num → outcome num A.

Definition ret {num A : Type} (a : A) : M num A := fun h => Ok a h.

Definition bind {num A B : Type} (m : M num A) (k : A → M num B) : M num B :=
  fun h => match m h with
           | Ok a h' => k a h'
           | Throw e h' => Throw e h'
           end.

Notation "x <- m ;; k" := (bind m (fun x => k))
  (at level 100, m at next level, right associativity).
Notation "m ;;; k" := (bind m (fun _ => k))
  (at level 100, right associativity).

Definition when {num : Type} (b : bool) (m : M num unit) : M num unit :=
  if b then m else ret tt.

(** A loop over a list of indices carrying an accumulator. *)
Fixpoint foldM {num A S : Type} (body : S → A → M num S) (s : S) (l : list A)
    : M num S :=
  match l with
  | [] => ret s
  | a :: l' => s' <- body s a ;; foldM body s' l'
  end.

Definition forM {num A : Type} (body : A → M num unit) (l : list A)
    : M num unit :=
  foldM (fun _ a => body a) tt l.

(** The heap a run leaves behind, and the value it returns. *)
Definition heap_of {num A : Type} (o : outcome num A) : heap num :=
  match o with Ok _ h => h | Throw _ h => h end.

Definition value_of {num A : Type} (o : outcome num A) : option A :=
  match o with Ok a _ => Some a | Throw _ _ => None end.

(** *** Primitive accesses *)

(** [dataList[i]] followed by a property read. *)
Definition read_data {num : Type} (i : Z) : M num (KLineData num) :=
  fun h => match getZ (dataList h) i with
           | Some b => Ok b h
           | None => Throw TypeError h
           end.

(** [const result = []]. *)
Definition new_result {num : Type} : M num unit :=
  fun h => Ok tt (mkHeap (dataList h) []).

(** [result.push({})]. *)
Definition push_empty {num : Type} : M num unit :=
  fun h => Ok tt (mkHeap (dataList h) (result h ++ [empty_point])).

(** [result[i]] followed by a property read. *)
Definition read_result {num : Type} (i : Z) : M num (IchimokuCloud num) :=
  fun h => match getZ (result h) i with
           | Some p => Ok p h
           | None => Throw TypeError h
           end.

(** [result[i].field = v]. *)
Definition write_result {num : Type} (i : Z)
    (f : IchimokuCloud num → IchimokuCloud num) : M num unit :=
  fun h => match getZ (result h) i with
           | Some _ => Ok tt (mkHeap (dataList h) (alterZ f i (result h)))
           | None => Throw TypeError h
           end.

(** [dataList.length]. *)
Definition data_length {num : Type} : M num Z :=
  fun h => Ok (Z.of_nat (length (dataList h))) h.

(** [return result]. *)
Definition get_result {num : Type} : M num (list (IchimokuCloud num)) :=
  fun h => Ok (result h) h.

(** ** [getHighest] and [getLowest] *)

Definition getHighest {num : Type} `{!NumOps num} (endIndex period : Z) : M num num :=
  let startIndex := Z.max 0 (endIndex - period + 1) in
  b0 <- read_data startIndex ;;
  foldM (fun highest i =>
           b <- read_data i ;;
           ret (if lt highest (high b) then high b else highest))
        (high b0) (seqZ (startIndex + 1) (endIndex - startIndex)).

Definition getLowest {num : Type} `{!NumOps num} (endIndex period : Z) : M num num :=
  let startIndex := Z.max 0 (endIndex - period + 1) in
  b0 <- read_data startIndex ;;
  foldM (fun lowest i =>
           b <- read_data i ;;
           ret (if lt (low b) lowest then low b else lowest))
        (low b0) (seqZ (startIndex + 1) (endIndex - startIndex)).

(** [(getHighest(dataList, i, period) + getLowest(dataList, i, period)) / 2] *)
Definition midpoint {num : Type} `{!NumOps num} (i period : Z) : M num num :=
  hi <- getHighest i period ;;
  lo <- getLowest i period ;;
  ret (div (add hi lo) two).

(** ** [calc] *)

(** The callback of [dataList.forEach], at element [kLineData], index [i]. *)
Definition calc_body {num : Type} `{!NumOps num}
    (tenkanPeriod kijunPeriod senkouBPeriod displacement : Z)
    (i : Z) (kLineData : KLineData num) : M num unit :=
  when (bool_decide (tenkanPeriod - 1 ≤ i))
       (v <- midpoint i tenkanPeriod ;; write_result i (set_tenkan v)) ;;;
  when (bool_decide (kijunPeriod - 1 ≤ i))
       (v <- midpoint i kijunPeriod ;; write_result i (set_kijun v)) ;;;
  p <- read_result i ;;
  match tenkan p, kijun p with
  | Some tenkanVal, Some kijunVal =>
      write_result (i + displacement)
                   (set_senkou1 (div (add tenkanVal kijunVal) two))
  | _, _ => ret tt
  end ;;;
  when (bool_decide (senkouBPeriod - 1 ≤ i))
       (v <- midpoint i senkouBPeriod ;;
        write_result (i + displacement) (set_senkou2 v)) ;;;
  when (bool_decide (displacement ≤ i))
       (write_result (i - displacement) (set_chikou (close kLineData))).

(** [dataList.forEach(callback)]: the elements and their indices are those
    of the array when the iteration starts. *)
Definition forEach_data {num : Type}
    (callback : Z → KLineData num → M num unit) : M num unit :=
  fun h => foldM (fun _ ib => callback (Z.of_nat (fst ib)) (snd ib)) tt
                 (imap pair (dataList h)) h.

Definition calc {num : Type} `{!NumOps num}
    (tenkanPeriod kijunPeriod senkouBPeriod displacement : Z)
    : M num (list (IchimokuCloud num)) :=
  len <- data_length ;;
  let resultLength := len + displacement in
  new_result ;;;
  forM (fun _ => push_empty) (seqZ 0 resultLength) ;;;
  forEach_data (calc_body tenkanPeriod kijunPeriod senkouBPeriod displacement) ;;;
  get_result.

(** A call of [calc] on the bars [bars]: the heap holds the caller's array
    and no result array yet. *)
Definition run_calc {num : Type} `{!NumOps num} (bars : list (KLineData num))
    (tenkanPeriod kijunPeriod senkouBPeriod displacement : Z)
    : outcome num (list (IchimokuCloud num)) :=
  calc tenkanPeriod kijunPeriod senkouBPeriod displacement (mkHeap bars []).

(** ** The cloud renderer *)

Record Coordinate (num : Type) : Type := mkCoordinate {
  x : num;
  y : num
}.
Arguments mkCoordinate {num} _ _.
Arguments x {num} _.
Arguments y {num} _.

Definition bullishColor : string := "rgba(38, 166, 154, 0.3)".
Definition bearishColor : string := "rgba(239, 83, 80, 0.3)".

(** The calls on the 2D context that [drawCloudPolygon] makes. *)
Inductive canvas_cmd (num : Type) : Type :=
  | BeginPath
  | MoveTo (px py : num)
  | LineTo (px py : num)
  | ClosePath
  | FillStyle (color : string)
  | Fill.
Arguments BeginPath {num}.
Arguments MoveTo {num} px py.
Arguments LineTo {num} px py.
Arguments ClosePath {num}.
Arguments FillStyle {num} color.
Arguments Fill {num}.

(** [drawCloudPolygon(ctx, points1, points2, color)]; [ctx] is the list of
    the commands issued so far. *)
Definition drawCloudPolygon {num : Type} (ctx : list (canvas_cmd num))
    (points1 points2 : list (Coordinate num)) (color : string)
    : list (canvas_cmd num) :=
  if bool_decide (length points1 < 2)%nat then ctx
  else
    match points1 with
    | [] => ctx
    | p0 :: rest1 =>
        ctx ++ [BeginPath; MoveTo (x p0) (y p0)]
            ++ map (fun p => LineTo (x p) (y p)) rest1
            ++ map (fun p => LineTo (x p) (y p)) (rev points2)
            ++ [ClosePath; FillStyle color; Fill]
    end.

(** One call of [drawCloudPolygon] made by [draw]: its arguments. *)
Record polygon_call (num : Type) : Type := mkCall {
  call_points1 : list (Coordinate num);
  call_points2 : list (Coordinate num);
  call_color : string
}.
Arguments mkCall {num} _ _ _.
Arguments call_points1 {num} _.
Arguments call_points2 {num} _.
Arguments call_color {num} _.

(** The local variables of [draw], and the calls made so far. *)
Record scan_state (num : Type) : Type := mkScan {
  points1 : list (Coordinate num);
  points2 : list (Coordinate num);
  currentIsBullish : option bool;
  calls : list (polygon_call num)
}.
Arguments mkScan {num} _ _ _ _.
Arguments points1 {num} _.
Arguments points2 {num} _.
Arguments currentIsBullish {num} _.
Arguments calls {num} _.

Definition scan_init {num : Type} : scan_state num := mkScan [] [] None [].

Definition color_of (isBullish : bool) : string :=
  if isBullish then bullishColor else bearishColor.

(** [points.length > 0 ? [points[points.length - 1]] : []] *)
Definition keep_last {A : Type} (l : list A) : list A :=
  match last l with Some p => [p] | None => [] end.

(** [result[i]?.senkou1] and [result[i]?.senkou2] *)
Definition senkou1_at {num : Type} (result : list (IchimokuCloud num)) (i : Z)
    : option num := getZ result i ≫= senkou1.
Definition senkou2_at {num : Type} (result : list (IchimokuCloud num)) (i : Z)
    : option num := getZ result i ≫= senkou2.

(** The body of the [for] loop of [draw] at index [i].  [xPixel] and
    [yPixel] are [xAxis.convertToPixel] and [yAxis.convertToPixel]. *)
Definition scan_step {num : Type} `{!NumOps num} (result : list (IchimokuCloud num))
    (xPixel : Z → num) (yPixel : num → num)
    (st : scan_state num) (i : Z) : scan_state num :=
  match senkou1_at result i, senkou2_at result i with
  | Some senkou1Val, Some senkou2Val =>
      let px := xPixel i in
      let y1 := yPixel senkou1Val in
      let y2 := yPixel senkou2Val in
      let isBullish := ge senkou1Val senkou2Val in
      let st1 :=
        match currentIsBullish st with
        | Some cur =>
            if bool_decide (cur ≠ isBullish) then
              mkScan (keep_last (points1 st)) (keep_last (points2 st))
                     (currentIsBullish st)
                     (calls st ++ [mkCall (points1 st) (points2 st) (color_of cur)])
            else st
        | None => st
        end in
      mkScan (points1 st1 ++ [mkCoordinate px y1])
             (points2 st1 ++ [mkCoordinate px y2])
             (Some isBullish) (calls st1)
  | _, _ => st
  end.

(** The [for] loop of [draw] over [from <= i < to]. *)
Definition scan {num : Type} `{!NumOps num} (result : list (IchimokuCloud num))
    (xPixel : Z → num) (yPixel : num → num) (from to : Z) : scan_state num :=
  foldl (scan_step result xPixel yPixel) scan_init (seqZ from (to - from)).

(** All the calls of [drawCloudPolygon] that [draw] makes, in order: those
    of the loop, then the one for the remaining polygon. *)
Definition draw_calls {num : Type} `{!NumOps num} (result : list (IchimokuCloud num))
    (xPixel : Z → num) (yPixel : num → num) (from to : Z)
    : list (polygon_call num) :=
  let st := scan result xPixel yPixel from to in
  match currentIsBullish st with
  | Some cur =>
      if bool_decide (1 < length (points1 st))%nat
      then calls st ++ [mkCall (points1 st) (points2 st) (color_of cur)]
      else calls st
  | None => calls st
  end.

(** [draw]: the context after the call, and the returned flag. *)
Definition draw {num : Type} `{!NumOps num} (ctx : list (canvas_cmd num))
    (result : list (IchimokuCloud num))
    (xPixel : Z → num) (yPixel : num → num) (from to : Z)
    : list (canvas_cmd num) * bool :=
  (foldl (fun c p =>
            drawCloudPolygon c (call_points1 p) (call_points2 p) (call_color p))
         ctx (draw_calls result xPixel yPixel from to),
   false).

(** A call draws something exactly when it passes the guard of
    [drawCloudPolygon]. *)
Definition rendered {num : Type} (p : polygon_call num) : Prop :=
  (2 ≤ length (call_points1 p))%nat.

Global Instance rendered_dec {num : Type} (p : polygon_call num)
    : Decision (rendered p).
Proof. unfold rendered. apply _. Defined.

(** The segments [draw] fills. *)
Definition rendered_segments {num : Type} `{!NumOps num} (result : list (IchimokuCloud num))
    (xPixel : Z → num) (yPixel : num → num) (from to : Z)
    : list (polygon_call num) :=
  filter rendered (draw_calls result xPixel yPixel from to).

(** ** The rationals as numbers *)

Definition Qlt_bool (a b : Q) : bool := negb (Qle_bool b a).

Global Instance Q_ops : NumOps Q :=
  mkNumOps Q Qplus Qdiv 2%Q Qlt_bool (fun a b => Qle_bool b a).

(** Sample data on the rationals. *)
Definition example_bars : list (KLineData Q) :=
  [mkKLineData 10 5 7; mkKLineData 12 6 8; mkKLineData 11 4 9;
   mkKLineData 13 7 10; mkKLineData 9 3 5]%Q.

Definition one_bar : list (KLineData Q) := [mkKLineData 10 5 7]%Q.

(** Sixty bars of a flat market. *)
Definition flat_bars : list (KLineData Q) := replicate 60 (mkKLineData 10 5 7)%Q.

Definition cloud_point (a b : Q) : IchimokuCloud Q :=
  mkIchimokuCloud None None None (Some a) (Some b).

(** Spans present at 0, 2, 3 and 4, with a gap at 1; the sign of
    [senkou1 - senkou2] is -, +, +, -. *)
Definition example_result : list (IchimokuCloud Q) :=
  [cloud_point 1 2; empty_point; cloud_point 3 1; cloud_point 4 1;
   cloud_point 1 5]%Q.

(** Spans present at index 0 only. *)
Definition lonely_result : list (IchimokuCloud Q) := [cloud_point 1 2]%Q.

(** The first four bars of [example_bars], and what [calc] returns for
    them with the parameters 2, 3, 4, 2 (see
    [draw_coverage_counterexample]): both spans are present at index 5
    only. *)
Definition short_bars : list (KLineData Q) :=
  [mkKLineData 10 5 7; mkKLineData 12 6 8; mkKLineData 11 4 9;
   mkKLineData 13 7 10]%Q.

Definition short_output : list (IchimokuCloud Q) :=
  [mkIchimokuCloud None None (Some 9) None None;
   mkIchimokuCloud (Some (17 # 2)) None (Some 10) None None;
   mkIchimokuCloud (Some (16 # 2)) (Some (16 # 2)) None None None;
   mkIchimokuCloud (Some (17 # 2)) (Some (17 # 2)) None None None;
   mkIchimokuCloud None None None (Some (64 # 8)) None;
   mkIchimokuCloud None None None (Some (68 # 8)) (Some (17 # 2))]%Q.

Definition example_x (i : Z) : Q := inject_Z i.
Definition example_y (v : Q) : Q := v.

(** ** Predicates used in the statements *)

(** [m] leaves the caller's array as it found it, however it ends. *)
Definition keeps_data {num A : Type} (m : M num A) : Prop :=
  ∀ h, dataList (heap_of (m h)) = dataList h.

(** What [m] returns on the bars [bars] alone ([None] when it throws). *)
Definition pure_of {num A : Type} (m : M num A) (bars : list (KLineData num))
    : option A :=
  value_of (m (mkHeap bars [])).

(** [m] only reads [dataList]: its value depends on the bars alone and the
    heap is left untouched. *)
Definition reads_only {num A : Type} (m : M num A) : Prop :=
  ∀ h, m h = match pure_of m (dataList h) with
             | Some v => Ok v h
             | None => Throw TypeError h
             end.

(** The only exception [m] can raise is a [TypeError]. *)
Definition type_errors_only {num A : Type} (m : M num A) : Prop :=
  ∀ h e h', m h = Throw e h' → e = TypeError.

(** [v] is a greatest high (a least low) among the bars at the indices
    [lo .. hi]: it is the high (low) of one of them and none is strictly
    above (below) it. *)
Definition window_highest {num : Type} `{!NumOps num}
    (bars : list (KLineData num)) (lo hi : Z) (v : num) : Prop :=
  (∃ j b, lo ≤ j ≤ hi ∧ getZ bars j = Some b ∧ high b = v) ∧
  (∀ j b, lo ≤ j ≤ hi → getZ bars j = Some b → lt v (high b) = false).

Definition window_lowest {num : Type} `{!NumOps num}
    (bars : list (KLineData num)) (lo hi : Z) (v : num) : Prop :=
  (∃ j b, lo ≤ j ≤ hi ∧ getZ bars j = Some b ∧ low b = v) ∧
  (∀ j b, lo ≤ j ≤ hi → getZ bars j = Some b → lt (low b) v = false).

(** [v] is the midpoint of the window of [period] bars ending at [i],
    clamped at the start of the sequence. *)
Definition window_midpoint {num : Type} `{!NumOps num}
    (bars : list (KLineData num)) (i period : Z) (v : num) : Prop :=
  ∃ hi lo,
    window_highest bars (Z.max 0 (i - period + 1)) i hi ∧
    window_lowest bars (Z.max 0 (i - period + 1)) i lo ∧
    v = div (add hi lo) two.

(** The parameters the calculator is meant for: periods of at least one
    bar and a displacement that does not go backwards. *)
Definition valid_params (tenkanPeriod kijunPeriod senkouBPeriod displacement : Z)
    : Prop :=
  1 ≤ tenkanPeriod ∧ 1 ≤ kijunPeriod ∧ 1 ≤ senkouBPeriod ∧ 0 ≤ displacement.

(** The value of a line of period [period] at bar [j]. *)
Definition line_at {num : Type} `{!NumOps num} (bars : list (KLineData num))
    (period j : Z) : option num :=
  if bool_decide (period - 1 ≤ j) then pure_of (midpoint j period) bars
  else None.

(** The record at output index [j] once the bars before index [k] have
    been processed. *)
Definition point_after {num : Type} `{!NumOps num} (bars : list (KLineData num))
    (tenkanPeriod kijunPeriod senkouBPeriod displacement : Z) (k j : Z)
    : IchimokuCloud num :=
  mkIchimokuCloud
    (if bool_decide (j < k) then line_at bars tenkanPeriod j else None)
    (if bool_decide (j < k) then line_at bars kijunPeriod j else None)
    (if bool_decide (j + displacement < k)
     then close <$> getZ bars (j + displacement) else None)
    (if bool_decide (displacement ≤ j < k + displacement)
     then match line_at bars tenkanPeriod (j - displacement),
                line_at bars kijunPeriod (j - displacement) with
          | Some t, Some kj => Some (div (add t kj) two)
          | _, _ => None
          end
     else None)
    (if bool_decide (displacement ≤ j < k + displacement)
     then line_at bars senkouBPeriod (j - displacement) else None).

(** The two loops of [getHighest] and [getLowest] are one loop, over a
    field [f] and a test [R acc v] for replacing the accumulator. *)
Definition pick_loop {num : Type} (R : num → num → bool)
    (f : KLineData num → num) (acc : num) (l : list Z) : M num num :=
  foldM (fun acc i => b <- read_data i ;; ret (if R acc (f b) then f b else acc))
        acc l.

(** The loop invariant of [forEach]: before bar [k] is processed the
    result array has its final length and holds [point_after .. k]. *)
Definition calc_invariant {num : Type} `{!NumOps num}
    (bars : list (KLineData num))
    (tenkanPeriod kijunPeriod senkouBPeriod displacement : Z) (k : Z)
    (r : list (IchimokuCloud num)) : Prop :=
  Z.of_nat (length r) = Z.of_nat (length bars) + displacement ∧
  ∀ j p, getZ r j = Some p →
         p = point_after bars tenkanPeriod kijunPeriod senkouBPeriod displacement k j.

(** ** The scan seen at the level of indices

    The points [draw] collects are the pixel images of the indices at
    which both spans are present.  The definitions below describe the same
    scan on those indices; [scan_pixel_state] proves the two agree. *)

(** An index at which both spans are present, with their values. *)
Record sample (num : Type) : Type := mkSample {
  s_index : Z;
  s_senkou1 : num;
  s_senkou2 : num
}.
Arguments mkSample {num} _ _ _.
Arguments s_index {num} _.
Arguments s_senkou1 {num} _.
Arguments s_senkou2 {num} _.

Definition sample_at {num : Type} (result : list (IchimokuCloud num)) (i : Z)
    : option (sample num) :=
  match senkou1_at result i, senkou2_at result i with
  | Some a, Some b => Some (mkSample i a b)
  | _, _ => None
  end.

(** The samples of the visible range, in scan order. *)
Definition visible_samples {num : Type} (result : list (IchimokuCloud num))
    (from to : Z) : list (sample num) :=
  omap (sample_at result) (seqZ from (to - from)).

Definition sample_bullish {num : Type} `{!NumOps num} (s : sample num) : bool :=
  ge (s_senkou1 s) (s_senkou2 s).

Definition upper_point {num : Type} (xPixel : Z → num) (yPixel : num → num)
    (s : sample num) : Coordinate num :=
  mkCoordinate (xPixel (s_index s)) (yPixel (s_senkou1 s)).

Definition lower_point {num : Type} (xPixel : Z → num) (yPixel : num → num)
    (s : sample num) : Coordinate num :=
  mkCoordinate (xPixel (s_index s)) (yPixel (s_senkou2 s)).

(** A segment handed to [drawCloudPolygon]: its samples and its flag. *)
Abbreviation index_segment num := (list (sample num) * bool)%type.

Record index_state (num : Type) : Type := mkIndexState {
  open_samples : list (sample num);
  open_flag : option bool;
  closed_segments : list (index_segment num)
}.
Arguments mkIndexState {num} _ _ _.
Arguments open_samples {num} _.
Arguments open_flag {num} _.
Arguments closed_segments {num} _.

Definition index_init {num : Type} : index_state num := mkIndexState [] None [].

Definition index_step {num : Type} `{!NumOps num} (st : index_state num)
    (s : sample num) : index_state num :=
  let st1 :=
    match open_flag st with
    | Some cur =>
        if bool_decide (cur ≠ sample_bullish s) then
          mkIndexState (keep_last (open_samples st)) (open_flag st)
                       (closed_segments st ++ [(open_samples st, cur)])
        else st
    | None => st
    end in
  mkIndexState (open_samples st1 ++ [s]) (Some (sample_bullish s))
               (closed_segments st1).

Definition index_scan {num : Type} `{!NumOps num} (l : list (sample num))
    : index_state num :=
  foldl index_step index_init l.

(** The segments handed to [drawCloudPolygon] for the samples [l]. *)
Definition index_calls {num : Type} `{!NumOps num} (l : list (sample num))
    : list (index_segment num) :=
  let st := index_scan l in
  match open_flag st with
  | Some cur =>
      if bool_decide (1 < length (open_samples st))%nat
      then closed_segments st ++ [(open_samples st, cur)]
      else closed_segments st
  | None => closed_segments st
  end.

Definition index_rendered {num : Type} (seg : index_segment num) : Prop :=
  (2 ≤ length (fst seg))%nat.

Global Instance index_rendered_dec {num : Type} (seg : index_segment num)
    : Decision (index_rendered seg).
Proof. unfold index_rendered. apply _. Defined.

(** The segments that are filled, as lists of samples. *)
Definition rendered_index_segments {num : Type} `{!NumOps num}
    (result : list (IchimokuCloud num)) (from to : Z)
    : list (index_segment num) :=
  filter index_rendered (index_calls (visible_samples result from to)).

(** From indices to pixels. *)
Definition pixel_call {num : Type} (xPixel : Z → num) (yPixel : num → num)
    (seg : index_segment num) : polygon_call num :=
  mkCall (upper_point xPixel yPixel <$> fst seg)
         (lower_point xPixel yPixel <$> fst seg)
         (color_of (snd seg)).

Definition pixel_state {num : Type} (xPixel : Z → num) (yPixel : num → num)
    (st : index_state num) : scan_state num :=
  mkScan (upper_point xPixel yPixel <$> open_samples st)
         (lower_point xPixel yPixel <$> open_samples st)
         (open_flag st)
         (pixel_call xPixel yPixel <$> closed_segments st).

(** Each segment starts where the one before it ends. *)
Definition chained {A : Type} (segs : list (list A)) : Prop :=
  ∀ k seg1 seg2, segs !! k = Some seg1 → segs !! S k = Some seg2 →
                 is_Some (last seg1) ∧ last seg1 = head seg2.

(** What holds of the index-level state once the samples [l] have been
    scanned. *)
Record index_invariant {num : Type} `{!NumOps num} (l : list (sample num))
    (st : index_state num) : Prop := mkIndexInvariant {
  (** the flag and the last point are those of the last sample *)
  inv_flag :
    match last l with
    | None => st = index_init
    | Some s => open_flag st = Some (sample_bullish s) ∧
                last (open_samples st) = Some s
    end;
  (** every collected point is one of the samples *)
  inv_open_sound : ∀ s, s ∈ open_samples st → s ∈ l;
  inv_closed_sound :
    ∀ seg s, seg ∈ closed_segments st → s ∈ fst seg → s ∈ l;
  (** every sample is in the open segment or in a filled one *)
  inv_complete :
    ∀ s, s ∈ l →
         s ∈ open_samples st ∨
         ∃ seg, seg ∈ closed_segments st ∧ index_rendered seg ∧ s ∈ fst seg;
  inv_short : (length l ≤ 1)%nat → closed_segments st = [] ∧ open_samples st = l;
  inv_long : (2 ≤ length l)%nat → (2 ≤ length (open_samples st))%nat;
  (** the filled segments and the open one start where the previous ends *)
  inv_chain :
    chained ((fst <$> filter index_rendered (closed_segments st))
             ++ [open_samples st]);
  (** a closed segment carries the flag of its last sample *)
  inv_color :
    ∀ seg, seg ∈ closed_segments st →
           ∃ s, last (fst seg) = Some s ∧ snd seg = sample_bullish s
}.

(** The commands one call of [drawCloudPolygon] adds to the context. *)
Definition polygon_commands {num : Type} (c : polygon_call num)
    : list (canvas_cmd num) :=
  drawCloudPolygon [] (call_points1 c) (call_points2 c) (call_color c).

(** ** Further predicates: the shape a run of [calc] keeps *)

(** [m], when it returns, leaves the bars in place and the result array at
    the length it had. *)
Definition keeps_shape {num A : Type} (m : M num A) : Prop :=
  ∀ h a h', m h = Ok a h' →
            dataList h' = dataList h ∧ length (result h') = length (result h).

(** [m] throws on every heap that holds the bars [bars] and a result array
    of [n] records. *)
Definition fails_on {num A : Type} (bars : list (KLineData num)) (n : nat)
    (m : M num A) : Prop :=
  ∀ h, dataList h = bars → length (result h) = n → value_of (m h) = None.

(** ** Further predicates: the canvas path and the shape of the segments *)

(** The point a command moves or draws to. *)
Definition cmd_vertex {num : Type} (c : canvas_cmd num) : option (Coordinate num) :=
  match c with
  | MoveTo px py | LineTo px py => Some (mkCoordinate px py)
  | _ => None
  end.

(** The points a list of commands goes through, in order. *)
Definition path_vertices {num : Type} (cmds : list (canvas_cmd num))
    : list (Coordinate num) :=
  omap cmd_vertex cmds.

(** One subpath through the points [l]: move to the first, draw to the rest. *)
Definition trace_path {num : Type} (l : list (Coordinate num))
    : list (canvas_cmd num) :=
  match l with
  | [] => []
  | p :: ps => MoveTo (x p) (y p) :: map (fun q => LineTo (x q) (y q)) ps
  end.

(** How the segments of the scan sit in the list [l] of scanned samples. *)
Record index_shape {num : Type} `{!NumOps num} (l : list (sample num))
    (st : index_state num) : Prop := mkIndexShape {
  (** the open segment is the end of [l], a closed one a block of [l] *)
  shape_open_suffix : ∃ l1, l = l1 ++ open_samples st;
  shape_closed_block :
    ∀ seg, seg ∈ closed_segments st → ∃ l1 l2, l = l1 ++ fst seg ++ l2;
  (** after its first sample a segment holds samples of its own sign *)
  shape_open_sign :
    ∀ cur s, open_flag st = Some cur → s ∈ tail (open_samples st) →
             sample_bullish s = cur;
  shape_closed_sign :
    ∀ seg s, seg ∈ closed_segments st → s ∈ tail (fst seg) →
             sample_bullish s = snd seg;
  (** the flags alternate *)
  shape_alternate :
    ∀ k seg1 seg2, closed_segments st !! k = Some seg1 →
                   closed_segments st !! S k = Some seg2 →
                   snd seg1 ≠ snd seg2;
  shape_last_flag :
    ∀ seg cur, last (closed_segments st) = Some seg → open_flag st = Some cur →
               snd seg ≠ cur;
  (** only the first call can be too short to draw *)
  shape_later_rendered :
    ∀ k seg, closed_segments st !! S k = Some seg → index_rendered seg;
  shape_open_long :
    closed_segments st ≠ [] → (2 ≤ length (open_samples st))%nat
}.

(** ** Array access *)

Section Arrays.
Context {A : Type}.
Implicit Types (l : list A) (i j : Z).

Lemma getZ_Some_range l i a : getZ l i = Some a → 0 ≤ i < Z.of_nat (length l).
Proof.
  unfold getZ. case_decide; [|done].
  intros Hl. apply lookup_lt_Some in Hl. lia.
Qed.

Lemma getZ_in_range l i : 0 ≤ i < Z.of_nat (length l) → is_Some (getZ l i).
Proof.
  intros Hi. unfold getZ. rewrite decide_True by lia.
  apply lookup_lt_is_Some. lia.
Qed.

Lemma getZ_None_iff l i : getZ l i = None ↔ ¬ (0 ≤ i < Z.of_nat (length l)).
Proof.
  split.
  - intros Hn Hi. destruct (getZ_in_range l i Hi) as [a Ha]. congruence.
  - intros Hi. destruct (getZ l i) as [a|] eqn:E; [|done].
    apply getZ_Some_range in E. lia.
Qed.

Lemma length_alterZ (f : A → A) i l : length (alterZ f i l) = length l.
Proof. unfold alterZ. case_decide; [apply length_alter|done]. Qed.

Lemma getZ_alterZ (f : A → A) i l j :
  getZ (alterZ f i l) j = if decide (i = j) then f <$> getZ l j else getZ l j.
Proof.
  unfold getZ, alterZ. destruct (decide (i = j)) as [->|Hne].
  - case_decide; [|done]. by rewrite list_lookup_alter_eq.
  - repeat case_decide; try done.
    rewrite list_lookup_alter_ne; [done|lia].
Qed.

Lemma getZ_replicate (n : nat) (a : A) i :
  0 ≤ i < Z.of_nat n → getZ (replicate n a) i = Some a.
Proof.
  intros Hi. unfold getZ. rewrite decide_True by lia.
  apply lookup_replicate_2. lia.
Qed.

Lemma getZ_of_nat l (n : nat) : getZ l (Z.of_nat n) = l !! n.
Proof. unfold getZ. rewrite decide_True by lia. by rewrite Nat2Z.id. Qed.

End Arrays.

(** ** The monad: frame and read-only computations *)

Section Monad.
Context {num : Type}.

Lemma keeps_data_ret {A : Type} (a : A) : keeps_data (ret (num:=num) a).
Proof. by intros h. Qed.

Lemma keeps_data_bind {A B : Type} (m : M num A) (k : A → M num B) :
  keeps_data m → (∀ a, keeps_data (k a)) → keeps_data (bind m k).
Proof.
  intros Hm Hk h. unfold bind. specialize (Hm h).
  destruct (m h) as [a h'|e h']; simpl in *; [|done].
  by rewrite Hk.
Qed.

Lemma keeps_data_when (b : bool) (m : M num unit) :
  keeps_data m → keeps_data (when b m).
Proof. destruct b; [done|]. intros _. apply keeps_data_ret. Qed.

Lemma keeps_data_foldM {A S : Type} (body : S → A → M num S) (l : list A) :
  (∀ s a, keeps_data (body s a)) → ∀ s, keeps_data (foldM body s l).
Proof.
  intros Hb. induction l as [|a l IH]; intros s; simpl.
  - apply keeps_data_ret.
  - apply keeps_data_bind; [apply Hb|]. intros s'. apply IH.
Qed.

Lemma keeps_data_read_data i : keeps_data (read_data (num:=num) i).
Proof. intros h. unfold read_data. by destruct (getZ _ _). Qed.

Lemma keeps_data_read_result i : keeps_data (read_result (num:=num) i).
Proof. intros h. unfold read_result. by destruct (getZ _ _). Qed.

Lemma keeps_data_write_result i f : keeps_data (write_result (num:=num) i f).
Proof. intros h. unfold write_result. by destruct (getZ _ _). Qed.

Lemma keeps_data_push_empty : keeps_data (push_empty (num:=num)).
Proof. by intros h. Qed.

Lemma reads_only_ret {A : Type} (a : A) : reads_only (ret (num:=num) a).
Proof. by intros h. Qed.

Lemma reads_only_read_data i : reads_only (read_data (num:=num) i).
Proof.
  intros h. unfold pure_of, read_data. simpl. by destruct (getZ _ _).
Qed.

Lemma reads_only_bind {A B : Type} (m : M num A) (k : A → M num B) :
  reads_only m → (∀ a, reads_only (k a)) → reads_only (bind m k).
Proof.
  intros Hm Hk h. unfold pure_of, bind.
  rewrite (Hm h), (Hm (mkHeap (dataList h) [])). simpl.
  destruct (pure_of m (dataList h)) as [a|]; [|done].
  rewrite (Hk a h), (Hk a (mkHeap (dataList h) [])). simpl.
  by destruct (pure_of (k a) (dataList h)).
Qed.

Lemma reads_only_foldM {A S : Type} (body : S → A → M num S) (l : list A) :
  (∀ s a, reads_only (body s a)) → ∀ s, reads_only (foldM body s l).
Proof.
  intros Hb. induction l as [|a l IH]; intros s; simpl.
  - apply reads_only_ret.
  - apply reads_only_bind; [apply Hb|]. intros s'. apply IH.
Qed.

(** A read-only computation returns the same value whatever [result] holds. *)
Lemma reads_only_run {A : Type} (m : M num A) bars r v :
  reads_only m → pure_of m bars = Some v → m (mkHeap bars r) = Ok v (mkHeap bars r).
Proof. intros Hm Hv. rewrite (Hm (mkHeap bars r)). simpl. by rewrite Hv. Qed.

Lemma reads_only_keeps_data {A : Type} (m : M num A) :
  reads_only m → keeps_data m.
Proof. intros Hm h. rewrite (Hm h). by destruct (pure_of _ _). Qed.

End Monad.

(** ** Window extrema *)

Section Extrema.
Context {num : Type} `{!NumOps num}.
Implicit Types (bars : list (KLineData num)) (h : heap num).

Lemma pick_loop_spec (R : num → num → bool) (f : KLineData num → num) h :
  (∀ a, R a a = false) →
  (∀ a b c, R a b = true → R b c = true → R a c = true) →
  ∀ (n : nat) (a : Z) (acc : num),
    0 ≤ a → a + Z.of_nat n ≤ Z.of_nat (length (dataList h)) →
    ∃ v, pick_loop R f acc (seqZ a (Z.of_nat n)) h = Ok v h ∧
         (∀ w, R acc w = false → R v w = false) ∧
         (∀ j b, a ≤ j < a + Z.of_nat n → getZ (dataList h) j = Some b →
                 R v (f b) = false) ∧
         (v = acc ∨ ∃ j b, a ≤ j < a + Z.of_nat n ∧
                           getZ (dataList h) j = Some b ∧ f b = v).
Proof.
  intros Hirr Htr. induction n as [|n IH]; intros a acc Ha Hlen.
  - exists acc. simpl. split; [done|]. split; [done|].
    split; [intros; lia|by left].
  - rewrite seqZ_cons by lia. unfold pick_loop. simpl.
    destruct (getZ_in_range (dataList h) a) as [b Hb]; [lia|].
    unfold bind at 1. unfold bind at 1. unfold read_data at 1. rewrite Hb.
    simpl. set (acc' := if R acc (f b) then f b else acc).
    replace (Z.pred (Z.of_nat (S n))) with (Z.of_nat n) by lia.
    destruct (IH (Z.succ a) acc') as (v & Hrun & Hmono & Hub & Hwit);
      [lia|lia|].
    assert (Hstep : ∀ w, R acc w = false → R acc' w = false).
    { intros w Hw. subst acc'. destruct (R acc (f b)) eqn:E; [|done].
      destruct (R (f b) w) eqn:E2; [|done].
      by rewrite (Htr _ _ _ E E2) in Hw. }
    assert (Hself : R acc' (f b) = false).
    { subst acc'. destruct (R acc (f b)) eqn:E; [apply Hirr|done]. }
    exists v. split; [exact Hrun|]. split; [|split].
    + intros w Hw. apply Hmono, Hstep, Hw.
    + intros j b' Hj Hb'. destruct (decide (j = a)) as [->|Hne].
      * assert (b' = b) as -> by congruence. by apply Hmono.
      * apply (Hub j); [lia|done].
    + destruct Hwit as [->|(j & b' & Hj & Hb' & Hv)].
      * subst acc'. destruct (R acc (f b)); [right|by left].
        exists a, b. split; [lia|done].
      * right. exists j, b'. split; [lia|done].
Qed.

Lemma getHighest_unfold endIndex period :
  getHighest endIndex period =
  (b0 <- read_data (Z.max 0 (endIndex - period + 1)) ;;
   pick_loop lt high (high b0)
     (seqZ (Z.max 0 (endIndex - period + 1) + 1)
           (endIndex - Z.max 0 (endIndex - period + 1)))).
Proof. reflexivity. Qed.

Lemma getLowest_unfold endIndex period :
  getLowest endIndex period =
  (b0 <- read_data (Z.max 0 (endIndex - period + 1)) ;;
   pick_loop (fun acc v => lt v acc) low (low b0)
     (seqZ (Z.max 0 (endIndex - period + 1) + 1)
           (endIndex - Z.max 0 (endIndex - period + 1)))).
Proof. reflexivity. Qed.

Lemma reads_only_getHighest e p : reads_only (getHighest e p).
Proof.
  apply reads_only_bind; [apply reads_only_read_data|]. intros b0.
  apply reads_only_foldM. intros s i.
  apply reads_only_bind; [apply reads_only_read_data|].
  intros b. apply reads_only_ret.
Qed.

Lemma reads_only_getLowest e p : reads_only (getLowest e p).
Proof.
  apply reads_only_bind; [apply reads_only_read_data|]. intros b0.
  apply reads_only_foldM. intros s i.
  apply reads_only_bind; [apply reads_only_read_data|].
  intros b. apply reads_only_ret.
Qed.

Lemma reads_only_midpoint i p : reads_only (midpoint i p).
Proof.
  apply reads_only_bind; [apply reads_only_getHighest|]. intros hi.
  apply reads_only_bind; [apply reads_only_getLowest|]. intros lo.
  apply reads_only_ret.
Qed.

Section StrictOrder.
Hypothesis lt_irrefl : ∀ a : num, lt a a = false.
Hypothesis lt_trans : ∀ a b c : num, lt a b = true → lt b c = true → lt a c = true.

Lemma getHighest_spec h e p :
  0 ≤ e < Z.of_nat (length (dataList h)) → 1 ≤ p →
  ∃ v, getHighest e p h = Ok v h ∧
       window_highest (dataList h) (Z.max 0 (e - p + 1)) e v.
Proof.
  intros He Hp. rewrite getHighest_unfold.
  set (s := Z.max 0 (e - p + 1)).
  destruct (getZ_in_range (dataList h) s) as [b0 Hb0]; [lia|].
  unfold bind, read_data. rewrite Hb0.
  destruct (pick_loop_spec lt high h lt_irrefl lt_trans
              (Z.to_nat (e - s)) (s + 1) (high b0))
    as (v & Hrun & Hmono & Hub & Hwit); [lia|lia|].
  rewrite Z2Nat.id in Hrun, Hub, Hwit by lia.
  exists v. split; [exact Hrun|]. split.
  - destruct Hwit as [->|(j & b & Hj & Hb & Hv)].
    + exists s, b0. split; [lia|done].
    + exists j, b. split; [lia|done].
  - intros j b Hj Hb. destruct (decide (j = s)) as [->|Hne].
    + assert (b = b0) as -> by congruence. apply Hmono, lt_irrefl.
    + apply (Hub j); [lia|done].
Qed.

Lemma getLowest_spec h e p :
  0 ≤ e < Z.of_nat (length (dataList h)) → 1 ≤ p →
  ∃ v, getLowest e p h = Ok v h ∧
       window_lowest (dataList h) (Z.max 0 (e - p + 1)) e v.
Proof.
  intros He Hp. rewrite getLowest_unfold.
  set (s := Z.max 0 (e - p + 1)).
  destruct (getZ_in_range (dataList h) s) as [b0 Hb0]; [lia|].
  unfold bind, read_data. rewrite Hb0.
  destruct (pick_loop_spec (fun acc v => lt v acc) low h lt_irrefl
              (fun a b c Hab Hbc => lt_trans c b a Hbc Hab)
              (Z.to_nat (e - s)) (s + 1) (low b0))
    as (v & Hrun & Hmono & Hub & Hwit); [lia|lia|].
  rewrite Z2Nat.id in Hrun, Hub, Hwit by lia.
  exists v. split; [exact Hrun|]. split.
  - destruct Hwit as [->|(j & b & Hj & Hb & Hv)].
    + exists s, b0. split; [lia|done].
    + exists j, b. split; [lia|done].
  - intros j b Hj Hb. destruct (decide (j = s)) as [->|Hne].
    + assert (b = b0) as -> by congruence. apply Hmono, lt_irrefl.
    + apply (Hub j); [lia|done].
Qed.

Lemma midpoint_spec bars i p v :
  pure_of (midpoint i p) bars = Some v →
  0 ≤ i < Z.of_nat (length bars) → 1 ≤ p →
  window_midpoint bars i p v.
Proof.
  intros Hv Hi Hp. unfold pure_of, midpoint, bind in Hv.
  destruct (getHighest_spec (mkHeap bars []) i p Hi Hp) as (hi & Hhi & Hmax).
  destruct (getLowest_spec (mkHeap bars []) i p Hi Hp) as (lo & Hlo & Hmin).
  rewrite Hhi, Hlo in Hv. simpl in Hv. exists hi, lo.
  split; [exact Hmax|]. split; [exact Hmin|]. congruence.
Qed.

End StrictOrder.
End Extrema.

(** ** The calculator *)

Section Calc.
Context {num : Type} `{!NumOps num}.
Implicit Types (bars : list (KLineData num)) (h : heap num).
Implicit Types (r : list (IchimokuCloud num)).

Lemma pick_loop_ok (R : num → num → bool) (f : KLineData num → num) h :
  ∀ (n : nat) (a : Z) (acc : num),
    0 ≤ a → a + Z.of_nat n ≤ Z.of_nat (length (dataList h)) →
    ∃ v, pick_loop R f acc (seqZ a (Z.of_nat n)) h = Ok v h.
Proof.
  induction n as [|n IH]; intros a acc Ha Hlen.
  - by exists acc.
  - rewrite seqZ_cons by lia. unfold pick_loop. simpl.
    destruct (getZ_in_range (dataList h) a) as [b Hb]; [lia|].
    unfold bind at 1. unfold bind at 1. unfold read_data at 1. rewrite Hb.
    simpl. replace (Z.pred (Z.of_nat (S n))) with (Z.of_nat n) by lia.
    apply IH; lia.
Qed.

Lemma midpoint_defined bars i p :
  0 ≤ i < Z.of_nat (length bars) → 1 ≤ p →
  is_Some (pure_of (midpoint i p) bars).
Proof.
  intros Hi Hp. unfold pure_of, midpoint.
  set (h := mkHeap bars []). set (s := Z.max 0 (i - p + 1)).
  destruct (getZ_in_range bars s) as [b0 Hb0]; [lia|].
  assert (∃ hi, getHighest i p h = Ok hi h) as [hi Hhi].
  { rewrite getHighest_unfold. fold s. unfold bind, read_data. simpl.
    rewrite Hb0.
    destruct (pick_loop_ok lt high h (Z.to_nat (i - s)) (s + 1) (high b0))
      as [v Hv]; [lia|simpl; lia|].
    rewrite Z2Nat.id in Hv by lia. by exists v. }
  assert (∃ lo, getLowest i p h = Ok lo h) as [lo Hlo].
  { rewrite getLowest_unfold. fold s. unfold bind, read_data. simpl.
    rewrite Hb0.
    destruct (pick_loop_ok (fun acc v => lt v acc) low h
                (Z.to_nat (i - s)) (s + 1) (low b0))
      as [v Hv]; [lia|simpl; lia|].
    rewrite Z2Nat.id in Hv by lia. by exists v. }
  unfold bind. rewrite Hhi, Hlo. by eexists.
Qed.

Lemma line_at_defined bars p j :
  0 ≤ j < Z.of_nat (length bars) → 1 ≤ p →
  (is_Some (line_at bars p j) ↔ p - 1 ≤ j).
Proof.
  intros Hj Hp. unfold line_at. case_bool_decide.
  - split; [done|]. intros _. by apply midpoint_defined.
  - split; [|done]. by intros [? ?].
Qed.

Lemma push_loop {A : Type} (l : list A) h :
  forM (fun _ => push_empty) l h =
  Ok tt (mkHeap (dataList h) (result h ++ replicate (length l) empty_point)).
Proof.
  revert h. induction l as [|a l IH]; intros h.
  - simpl. by rewrite app_nil_r; destruct h.
  - unfold forM in *. simpl. unfold bind, push_empty at 1.
    rewrite IH. simpl. by rewrite <- app_assoc.
Qed.

Lemma write_result_run bars r i f :
  is_Some (getZ r i) →
  write_result i f (mkHeap bars r) = Ok tt (mkHeap bars (alterZ f i r)).
Proof. intros [p Hp]. unfold write_result. simpl. by rewrite Hp. Qed.

Lemma is_Some_getZ_alterZ r (f : IchimokuCloud num → IchimokuCloud num) i j :
  is_Some (getZ (alterZ f i r) j) ↔ is_Some (getZ r j).
Proof.
  rewrite getZ_alterZ. case_decide; [|done]. by rewrite fmap_is_Some.
Qed.

(** A guarded statement [if (i >= period - 1) { result[j].field = midpoint }]. *)
Lemma line_stage_run bars r period i j (setter : num → IchimokuCloud num → IchimokuCloud num) :
  0 ≤ i < Z.of_nat (length bars) → 1 ≤ period → is_Some (getZ r j) →
  when (bool_decide (period - 1 ≤ i))
       (v <- midpoint i period ;; write_result j (setter v)) (mkHeap bars r) =
  Ok tt (mkHeap bars (match line_at bars period i with
                      | Some v => alterZ (setter v) j r
                      | None => r
                      end)).
Proof.
  intros Hi Hp Hj. unfold line_at, when. case_bool_decide; [|done].
  destruct (midpoint_defined bars i period Hi Hp) as [v Hv]. rewrite Hv.
  unfold bind. rewrite (reads_only_run _ bars r v (reads_only_midpoint _ _) Hv).
  by apply write_result_run.
Qed.

Section Params.
Variables (bars : list (KLineData num)).
Variables (tenkanPeriod kijunPeriod senkouBPeriod displacement : Z).
Hypothesis Hvalid :
  valid_params tenkanPeriod kijunPeriod senkouBPeriod displacement.

Local Abbreviation L := (Z.of_nat (length bars)).
Local Abbreviation point_at :=
  (point_after bars tenkanPeriod kijunPeriod senkouBPeriod displacement).

Local Abbreviation calc_inv :=
  (calc_invariant bars tenkanPeriod kijunPeriod senkouBPeriod displacement).

Lemma calc_inv_lookup k r j :
  calc_inv k r → 0 ≤ j < L + displacement → getZ r j = Some (point_at k j).
Proof.
  intros [Hlen Hpt] Hj. destruct (getZ_in_range r j) as [p Hp]; [lia|].
  by rewrite Hp, (Hpt j p Hp).
Qed.

Lemma calc_inv_init :
  calc_inv 0 (replicate (Z.to_nat (L + displacement)) empty_point).
Proof.
  destruct Hvalid as (_ & _ & _ & Hd). split.
  - rewrite length_replicate. lia.
  - intros j p Hp. pose proof (getZ_Some_range _ _ _ Hp) as Hj.
    rewrite getZ_replicate in Hp by (rewrite length_replicate in Hj; lia).
    injection Hp as <-. unfold point_after, empty_point.
    repeat case_bool_decide; try lia; reflexivity.
Qed.

Lemma calc_body_run k b r :
  0 ≤ k → getZ bars k = Some b → calc_inv k r →
  ∃ r', calc_body tenkanPeriod kijunPeriod senkouBPeriod displacement k b
          (mkHeap bars r) = Ok tt (mkHeap bars r') ∧
        calc_inv (k + 1) r'.
Proof.
  intros Hk0 Hb Hinv. destruct Hvalid as (Ht & Hkj & Hs & Hd).
  pose proof (getZ_Some_range _ _ _ Hb) as Hk.
  pose proof Hinv as [Hlen Hpt].
  unfold calc_body.
  (* tenkan *)
  unfold bind at 1.
  rewrite line_stage_run by (try done; apply getZ_in_range; lia).
  set (r1 := match line_at bars tenkanPeriod k with
             | Some v => alterZ (set_tenkan v) k r | None => r end).
  assert (Hr1 : ∀ j, getZ r1 j =
            match line_at bars tenkanPeriod k with
            | Some v => if decide (k = j) then set_tenkan v <$> getZ r j
                        else getZ r j
            | None => getZ r j end).
  { intros j. subst r1.
    destruct (line_at bars tenkanPeriod k); [apply getZ_alterZ|done]. }
  assert (Hl1 : length r1 = length r).
  { subst r1. destruct (line_at bars tenkanPeriod k); [apply length_alterZ|done]. }
  (* kijun *)
  unfold bind at 1.
  rewrite line_stage_run by (try done; apply getZ_in_range; lia).
  set (r2 := match line_at bars kijunPeriod k with
             | Some v => alterZ (set_kijun v) k r1 | None => r1 end).
  assert (Hr2 : ∀ j, getZ r2 j =
            match line_at bars kijunPeriod k with
            | Some v => if decide (k = j) then set_kijun v <$> getZ r1 j
                        else getZ r1 j
            | None => getZ r1 j end).
  { intros j. subst r2.
    destruct (line_at bars kijunPeriod k); [apply getZ_alterZ|done]. }
  assert (Hl2 : length r2 = length r).
  { subst r2. destruct (line_at bars kijunPeriod k); [by rewrite length_alterZ|done]. }
  (* senkou1 *)
  unfold bind at 1. unfold read_result at 1. simpl.
  assert (Hp2 : ∃ p2, getZ r2 k = Some p2 ∧
                      tenkan p2 = line_at bars tenkanPeriod k ∧
                      kijun p2 = line_at bars kijunPeriod k).
  { rewrite Hr2, Hr1, (calc_inv_lookup k r k Hinv) by lia.
    unfold point_after. rewrite !bool_decide_eq_false_2 by lia.
    destruct (line_at bars tenkanPeriod k), (line_at bars kijunPeriod k);
      rewrite ?decide_True by done; simpl; eexists; (split; [done|]);
      by unfold set_kijun, set_tenkan. }
  destruct Hp2 as (p2 & Hp2 & Hten & Hkij). rewrite Hp2, Hten, Hkij.
  set (r3 := match line_at bars tenkanPeriod k, line_at bars kijunPeriod k with
             | Some t, Some kj =>
                 alterZ (set_senkou1 (div (add t kj) two)) (k + displacement) r2
             | _, _ => r2 end).
  assert (Hrun3 :
    match line_at bars tenkanPeriod k, line_at bars kijunPeriod k with
    | Some t, Some kj =>
        write_result (k + displacement) (set_senkou1 (div (add t kj) two))
    | _, _ => ret tt
    end (mkHeap bars r2) = Ok tt (mkHeap bars r3)).
  { subst r3. destruct (line_at bars tenkanPeriod k), (line_at bars kijunPeriod k);
      try done. apply write_result_run, getZ_in_range. lia. }
  unfold bind at 1. rewrite Hrun3.
  assert (Hr3 : ∀ j, getZ r3 j =
            match line_at bars tenkanPeriod k, line_at bars kijunPeriod k with
            | Some t, Some kj =>
                if decide (k + displacement = j)
                then set_senkou1 (div (add t kj) two) <$> getZ r2 j
                else getZ r2 j
            | _, _ => getZ r2 j end).
  { intros j. subst r3.
    destruct (line_at bars tenkanPeriod k), (line_at bars kijunPeriod k);
      try done. apply getZ_alterZ. }
  assert (Hl3 : length r3 = length r).
  { subst r3. destruct (line_at bars tenkanPeriod k), (line_at bars kijunPeriod k);
      try done. by rewrite length_alterZ. }
  (* senkou2 *)
  unfold bind at 1.
  rewrite line_stage_run by (try done; apply getZ_in_range; lia).
  set (r4 := match line_at bars senkouBPeriod k with
             | Some v => alterZ (set_senkou2 v) (k + displacement) r3
             | None => r3 end).
  assert (Hr4 : ∀ j, getZ r4 j =
            match line_at bars senkouBPeriod k with
            | Some v => if decide (k + displacement = j)
                        then set_senkou2 v <$> getZ r3 j else getZ r3 j
            | None => getZ r3 j end).
  { intros j. subst r4.
    destruct (line_at bars senkouBPeriod k); [apply getZ_alterZ|done]. }
  assert (Hl4 : length r4 = length r).
  { subst r4. destruct (line_at bars senkouBPeriod k); [by rewrite length_alterZ|done]. }
  (* chikou *)
  set (r5 := if bool_decide (displacement ≤ k)
             then alterZ (set_chikou (close b)) (k - displacement) r4 else r4).
  exists r5. split.
  { subst r5. unfold when. case_bool_decide; [|done].
    apply write_result_run, getZ_in_range. lia. }
  split.
  { subst r5. case_bool_decide; rewrite ?length_alterZ; lia. }
  intros j p Hp.
  assert (Hj : 0 ≤ j < L + displacement).
  { apply getZ_Some_range in Hp.
    assert (length r5 = length r4) as Hl5
      by (subst r5; case_bool_decide; [apply length_alterZ|done]). lia. }
  assert (Hr5 : getZ r5 j =
            if bool_decide (displacement ≤ k)
            then (if decide (k - displacement = j)
                  then set_chikou (close b) <$> getZ r4 j else getZ r4 j)
            else getZ r4 j).
  { subst r5. case_bool_decide; [apply getZ_alterZ|done]. }
  rewrite Hr5, Hr4, Hr3, Hr2, Hr1, (calc_inv_lookup k r j Hinv Hj) in Hp.
  unfold point_after in *.
  destruct (decide (k = j)) as [<-|Hkj'].
  - destruct (line_at bars tenkanPeriod k) as [t|] eqn:Et,
             (line_at bars kijunPeriod k) as [kj|] eqn:Ek,
             (line_at bars senkouBPeriod k) as [s|] eqn:Es;
      repeat (case_bool_decide || case_decide); simpl in Hp;
      injection Hp as <-; try lia;
      unfold set_chikou, set_senkou1, set_senkou2, set_kijun, set_tenkan; simpl;
      try replace (k - displacement) with k in * by lia;
      try replace (k + displacement) with k in * by lia;
      rewrite ?Et, ?Ek, ?Es, ?Hb; simpl; reflexivity.
  - destruct (line_at bars tenkanPeriod k) as [t|] eqn:Et,
             (line_at bars kijunPeriod k) as [kj|] eqn:Ek,
             (line_at bars senkouBPeriod k) as [s|] eqn:Es;
      repeat (case_bool_decide || case_decide); simpl in Hp;
      injection Hp as <-; try lia;
      unfold set_chikou, set_senkou1, set_senkou2, set_kijun, set_tenkan; simpl;
      try replace (j - displacement) with k in * by lia;
      try replace (j + displacement) with k in * by lia;
      rewrite ?Et, ?Ek, ?Es, ?Hb; simpl; reflexivity.
Qed.

Lemma forEach_loop rest :
  ∀ pre r, bars = pre ++ rest → calc_inv (Z.of_nat (length pre)) r →
    ∃ r', foldM (fun _ ib =>
                   calc_body tenkanPeriod kijunPeriod senkouBPeriod displacement
                             (Z.of_nat (fst ib)) (snd ib))
                tt (imap (fun n => pair (length pre + n)%nat) rest)
                (mkHeap bars r) = Ok tt (mkHeap bars r') ∧
          calc_inv L r'.
Proof.
  induction rest as [|b rest IH]; intros pre r Hbars Hinv.
  - exists r. split; [done|].
    assert (length bars = length pre) as Hlen
      by (by rewrite Hbars, app_nil_r).
    by rewrite Hlen.
  - rewrite imap_cons. simpl. rewrite Nat.add_0_r.
    assert (Hb : getZ bars (Z.of_nat (length pre)) = Some b).
    { rewrite getZ_of_nat, Hbars. by rewrite list_lookup_middle. }
    destruct (calc_body_run _ b r (Nat2Z.is_nonneg _) Hb Hinv) as (r1 & Hrun & Hinv1).
    unfold bind at 1. rewrite Hrun.
    destruct (IH (pre ++ [b]) r1) as (r' & Hrun' & Hinv').
    + by rewrite Hbars, <- app_assoc.
    + rewrite length_app. simpl.
      by replace (Z.of_nat (length pre + 1)) with (Z.of_nat (length pre) + 1) by lia.
    + exists r'. split; [|done]. rewrite <- Hrun'. f_equal.
      apply imap_ext. intros n a _. simpl. f_equal. rewrite length_app. simpl. lia.
Qed.

(** For valid parameters [calc] returns, leaves the bars in place, and the
    array it returns is described index by index by [point_after]. *)
Lemma calc_closed_form :
  ∃ r, run_calc bars tenkanPeriod kijunPeriod senkouBPeriod displacement =
         Ok r (mkHeap bars r) ∧
       calc_inv L r.
Proof.
  unfold run_calc, calc.
  unfold bind at 1. unfold data_length at 1. simpl.
  unfold bind at 1. unfold new_result at 1. simpl.
  unfold bind at 1. rewrite push_loop. simpl. rewrite length_seqZ.
  unfold bind at 1. unfold forEach_data at 1. simpl.
  destruct (forEach_loop bars [] _ eq_refl calc_inv_init) as (r' & Hrun & Hinv).
  simpl in Hrun.
  change (λ n : nat, pair n) with (@pair nat (KLineData num)) in Hrun.
  rewrite Hrun. by exists r'.
Qed.

End Params.

(** *** Frame and failure modes, for any parameters *)

Lemma keeps_data_midpoint i p : keeps_data (midpoint i p).
Proof. apply reads_only_keeps_data, reads_only_midpoint. Qed.

Lemma keeps_data_calc_body tp kp sp d i b : keeps_data (calc_body tp kp sp d i b).
Proof.
  unfold calc_body.
  repeat first
    [ apply keeps_data_midpoint
    | apply keeps_data_write_result
    | apply keeps_data_read_result
    | apply keeps_data_ret
    | apply keeps_data_when
    | apply keeps_data_bind; [|intros ?] ].
  match goal with
  | |- keeps_data (match tenkan ?p with _ => _ end) =>
      destruct (tenkan p), (kijun p)
  end; first [apply keeps_data_write_result | apply keeps_data_ret].
Qed.

Lemma keeps_data_calc tp kp sp d : keeps_data (calc tp kp sp d).
Proof.
  unfold calc.
  apply keeps_data_bind; [by intros h|]. intros len.
  apply keeps_data_bind; [by intros h|]. intros _.
  apply keeps_data_bind.
  { apply keeps_data_foldM. intros _ _. apply keeps_data_push_empty. }
  intros _. apply keeps_data_bind; [|by intros _ h].
  intros h. unfold forEach_data.
  apply keeps_data_foldM. intros _ ib. apply keeps_data_calc_body.
Qed.

End Calc.

(** *** The only exception is the engine's [TypeError] *)

Section Failures.
Context {num : Type} `{!NumOps num}.

Lemma type_errors_only_ret {A : Type} (a : A) : type_errors_only (ret (num:=num) a).
Proof. by intros h e h'. Qed.

Lemma type_errors_only_bind {A B : Type} (m : M num A) (k : A → M num B) :
  type_errors_only m → (∀ a, type_errors_only (k a)) →
  type_errors_only (bind m k).
Proof.
  intros Hm Hk h e h'. unfold bind. destruct (m h) as [a h1|e1 h1] eqn:E.
  - apply Hk.
  - intros [= <- <-]. by apply (Hm h e1 h1).
Qed.

Lemma type_errors_only_when (b : bool) (m : M num unit) :
  type_errors_only m → type_errors_only (when b m).
Proof. destruct b; [done|]. intros _. apply type_errors_only_ret. Qed.

Lemma type_errors_only_foldM {A S : Type} (body : S → A → M num S) (l : list A) :
  (∀ s a, type_errors_only (body s a)) → ∀ s, type_errors_only (foldM body s l).
Proof.
  intros Hb. induction l as [|a l IH]; intros s; simpl.
  - apply type_errors_only_ret.
  - apply type_errors_only_bind; [apply Hb|]. intros s'. apply IH.
Qed.

Lemma type_errors_only_reads {A : Type} (m : M num A) :
  reads_only m → type_errors_only m.
Proof.
  intros Hm h e h'. rewrite (Hm h). destruct (pure_of _ _); [done|].
  by intros [= <- _].
Qed.

Lemma type_errors_only_read_result i : type_errors_only (read_result (num:=num) i).
Proof.
  intros h e h'. unfold read_result. destruct (getZ _ _); [done|].
  by intros [= <- _].
Qed.

Lemma type_errors_only_write_result i f :
  type_errors_only (write_result (num:=num) i f).
Proof.
  intros h e h'. unfold write_result. destruct (getZ _ _); [done|].
  by intros [= <- _].
Qed.

Lemma type_errors_only_calc_body tp kp sp d i b :
  type_errors_only (calc_body tp kp sp d i b).
Proof.
  unfold calc_body.
  repeat first
    [ apply type_errors_only_reads, reads_only_midpoint
    | apply type_errors_only_write_result
    | apply type_errors_only_read_result
    | apply type_errors_only_ret
    | apply type_errors_only_when
    | apply type_errors_only_bind; [|intros ?] ].
  match goal with
  | |- type_errors_only (match tenkan ?p with _ => _ end) =>
      destruct (tenkan p), (kijun p)
  end; first [apply type_errors_only_write_result | apply type_errors_only_ret].
Qed.

Lemma type_errors_only_calc tp kp sp d : type_errors_only (calc tp kp sp d).
Proof.
  unfold calc.
  apply type_errors_only_bind; [by intros h e h'|]. intros len.
  apply type_errors_only_bind; [by intros h e h'|]. intros _.
  apply type_errors_only_bind.
  { apply type_errors_only_foldM. by intros _ _ h e h'. }
  intros _. apply type_errors_only_bind; [|by intros _ h e h'].
  intros h. unfold forEach_data.
  apply type_errors_only_foldM. intros _ ib. apply type_errors_only_calc_body.
Qed.

End Failures.

(** ** The calculator: the claims *)

Section CalcClaims.
Context {num : Type} `{!NumOps num}.
Implicit Types (bars : list (KLineData num)).



(** C6.  For valid parameters the output has exactly [L + displacement]
    entries, each index below that holds a record, and for an empty input
    the output is [displacement] all-absent records. *)
Theorem calc_output_length bars tp kp sp d :
  valid_params tp kp sp d →
  ∃ r h', run_calc bars tp kp sp d = Ok r h' ∧
          Z.of_nat (length r) = Z.of_nat (length bars) + d ∧
          (∀ j, 0 ≤ j < Z.of_nat (length bars) + d → is_Some (getZ r j)) ∧
          (bars = [] → r = replicate (Z.to_nat d) empty_point).
Proof.
  intros Hvalid.
  destruct (calc_closed_form bars tp kp sp d Hvalid) as (r & Hrun & Hlen & Hpt).
  exists r, (mkHeap bars r). split; [done|]. split; [done|]. split.
  - intros j Hj. apply getZ_in_range. lia.
  - intros ->. simpl in *. apply list_eq. intros n.
    destruct (decide (n < length r)%nat) as [Hn|Hn].
    + destruct (lookup_lt_is_Some_2 r n Hn) as [p Hp].
      rewrite Hp, lookup_replicate_2 by lia. f_equal.
      rewrite <- getZ_of_nat in Hp. rewrite (Hpt _ _ Hp).
      unfold point_after. simpl. destruct Hvalid as (_ & _ & _ & Hd).
      repeat case_bool_decide; try lia; reflexivity.
    + rewrite lookup_ge_None_2 by lia. symmetry. apply lookup_replicate_None. lia.
Qed.

(** C4.  For valid parameters and every input index [i], the record at
    output index [i + displacement] has [senkou1] present exactly when both
    [tenkan] and [kijun] are present at index [i], and then it is their
    average. *)
Theorem calc_senkou1 bars tp kp sp d :
  valid_params tp kp sp d →
  ∃ r h', run_calc bars tp kp sp d = Ok r h' ∧
    ∀ i, 0 ≤ i < Z.of_nat (length bars) →
      ∃ p q, getZ r i = Some p ∧ getZ r (i + d) = Some q ∧
        (is_Some (senkou1 q) ↔ is_Some (tenkan p) ∧ is_Some (kijun p)) ∧
        (∀ t k, tenkan p = Some t → kijun p = Some k →
                senkou1 q = Some (div (add t k) two)).
Proof.
  intros Hvalid.
  destruct (calc_closed_form bars tp kp sp d Hvalid) as (r & Hrun & Hinv).
  exists r, (mkHeap bars r). split; [done|]. intros i Hi.
  destruct Hvalid as (_ & _ & _ & Hd).
  exists (point_after bars tp kp sp d (Z.of_nat (length bars)) i),
         (point_after bars tp kp sp d (Z.of_nat (length bars)) (i + d)).
  split; [eapply calc_inv_lookup; [exact Hinv|lia]|].
  split; [eapply calc_inv_lookup; [exact Hinv|lia]|].
  unfold point_after. simpl.
  rewrite !bool_decide_eq_true_2 by lia.
  replace (i + d - d) with i by lia.
  destruct (line_at bars tp i) as [t|], (line_at bars kp i) as [k|]; simpl.
  - split; [split; [by intros _|by intros _]|].
    by intros t' k' [= ->] [= ->].
  - split; [|done]. split; [by intros [? ?]|by intros [_ [? ?]]].
  - split; [|done]. split; [by intros [? ?]|by intros [[? ?] _]].
  - split; [|done]. split; [by intros [? ?]|by intros [[? ?] _]].
Qed.

(** C5.  For valid parameters, [chikou] at output index [i - displacement]
    is the close of bar [i] for every input index [i >= displacement], and
    [chikou] is absent at every output index [j] with
    [j + displacement >= L]. *)
Theorem calc_chikou bars tp kp sp d :
  valid_params tp kp sp d →
  ∃ r h', run_calc bars tp kp sp d = Ok r h' ∧
    (∀ i b, d ≤ i → getZ bars i = Some b →
       ∃ q, getZ r (i - d) = Some q ∧ chikou q = Some (close b)) ∧
    (∀ j q, Z.of_nat (length bars) ≤ j + d → getZ r j = Some q →
       chikou q = None).
Proof.
  intros Hvalid.
  destruct (calc_closed_form bars tp kp sp d Hvalid) as (r & Hrun & Hinv).
  exists r, (mkHeap bars r). split; [done|].
  destruct Hvalid as (_ & _ & _ & Hd). split.
  - intros i b Hdi Hb. pose proof (getZ_Some_range _ _ _ Hb) as Hi.
    eexists. split; [eapply calc_inv_lookup; [exact Hinv|lia]|].
    unfold point_after. simpl. rewrite bool_decide_eq_true_2 by lia.
    replace (i - d + d) with i by lia. by rewrite Hb.
  - intros j q Hj Hq. destruct Hinv as [_ Hpt]. rewrite (Hpt j q Hq).
    unfold point_after. simpl. by rewrite bool_decide_eq_false_2 by lia.
Qed.

(** C9.  [calc] never changes the caller's bars: whatever the parameters
    and however the call ends, the heap it leaves holds the same
    [dataList]; and for valid parameters the call returns with the bars
    (hence every [high], [low], [close] and the length) as they were. *)
Theorem calc_keeps_bars bars tp kp sp d :
  (∀ h, dataList (heap_of (calc tp kp sp d h)) = dataList h) ∧
  (valid_params tp kp sp d →
   ∃ r h', run_calc bars tp kp sp d = Ok r h' ∧ dataList h' = bars).
Proof.
  split.
  - apply keeps_data_calc.
  - intros Hvalid.
    destruct (calc_closed_form bars tp kp sp d Hvalid) as (r & Hrun & _).
    by exists r, (mkHeap bars r).
Qed.

Section StrictOrder.
Hypothesis lt_irrefl : ∀ a : num, lt a a = false.
Hypothesis lt_trans : ∀ a b c : num, lt a b = true → lt b c = true → lt a c = true.

(** C3.  For valid parameters and every input index [i], [tenkan] at
    output index [i] is present exactly when [i >= tenkanPeriod - 1] and is
    then the midpoint of the highest high and the lowest low over the bars
    [max(0, i - tenkanPeriod + 1) .. i]; likewise [kijun] with
    [kijunPeriod]; both are absent at output indices [>= L]. *)
Theorem calc_tenkan_kijun bars tp kp sp d :
  valid_params tp kp sp d →
  ∃ r h', run_calc bars tp kp sp d = Ok r h' ∧
    (∀ i, 0 ≤ i < Z.of_nat (length bars) →
       ∃ p, getZ r i = Some p ∧
         (is_Some (tenkan p) ↔ tp - 1 ≤ i) ∧
         (∀ v, tenkan p = Some v → window_midpoint bars i tp v) ∧
         (is_Some (kijun p) ↔ kp - 1 ≤ i) ∧
         (∀ v, kijun p = Some v → window_midpoint bars i kp v)) ∧
    (∀ j p, Z.of_nat (length bars) ≤ j → getZ r j = Some p →
       tenkan p = None ∧ kijun p = None).
Proof.
  intros Hvalid.
  destruct (calc_closed_form bars tp kp sp d Hvalid) as (r & Hrun & Hinv).
  exists r, (mkHeap bars r). split; [done|].
  destruct Hvalid as (Ht & Hk & _ & Hd). split.
  - intros i Hi. eexists.
    split; [eapply calc_inv_lookup; [exact Hinv|lia]|].
    unfold point_after. simpl. rewrite !bool_decide_eq_true_2 by lia.
    split; [by apply line_at_defined|]. split.
    { intros v Hv. unfold line_at in Hv. case_bool_decide; [|done].
      by apply midpoint_spec. }
    split; [by apply line_at_defined|].
    intros v Hv. unfold line_at in Hv. case_bool_decide; [|done].
    by apply midpoint_spec.
  - intros j p Hj Hp. destruct Hinv as [_ Hpt]. rewrite (Hpt j p Hp).
    unfold point_after. simpl. by rewrite !bool_decide_eq_false_2 by lia.
Qed.

End StrictOrder.
End CalcClaims.

(** ** The renderer: the scan on indices and the scan on pixels agree *)

Section Simulation.
Context {num : Type} `{!NumOps num}.
Variable result : list (IchimokuCloud num).
Variables (xPixel : Z → num) (yPixel : num → num).

Local Abbreviation step := (scan_step result xPixel yPixel).
Local Abbreviation pixels := (pixel_state xPixel yPixel).

Lemma keep_last_fmap {A B : Type} (f : A → B) (l : list A) :
  keep_last (f <$> l) = f <$> keep_last l.
Proof. unfold keep_last. rewrite fmap_last. by destruct (last l). Qed.

Lemma sample_at_Some i s :
  sample_at result i = Some s ↔
  s_index s = i ∧ senkou1_at result i = Some (s_senkou1 s) ∧
  senkou2_at result i = Some (s_senkou2 s).
Proof.
  unfold sample_at.
  destruct (senkou1_at result i) as [a|], (senkou2_at result i) as [b|];
    split; try done; try (by intros (? & ? & ?)).
  - by intros [= <-].
  - destruct s as [i' a' b']. simpl. by intros (-> & [= ->] & [= ->]).
Qed.

Lemma sample_at_None i :
  sample_at result i = None ↔
  senkou1_at result i = None ∨ senkou2_at result i = None.
Proof.
  unfold sample_at.
  destruct (senkou1_at result i), (senkou2_at result i); split; try done;
    try (by intros [?|?]); by auto.
Qed.

Lemma scan_step_absent st i :
  sample_at result i = None → step st i = st.
Proof.
  unfold scan_step, sample_at.
  by destruct (senkou1_at result i), (senkou2_at result i).
Qed.

Lemma scan_step_pixels st i s :
  sample_at result i = Some s → step (pixels st) i = pixels (index_step st s).
Proof.
  intros Hs. pose proof Hs as (Hi & Ha & Hb)%sample_at_Some.
  unfold scan_step. rewrite Ha, Hb.
  unfold index_step, sample_bullish, pixel_state. simpl.
  destruct (open_flag st) as [cur|]; simpl.
  - case_bool_decide; simpl.
    + rewrite !fmap_app, !keep_last_fmap. simpl.
      unfold upper_point, lower_point, pixel_call. simpl. by rewrite Hi.
    + rewrite !fmap_app. simpl. unfold upper_point, lower_point. by rewrite Hi.
  - rewrite !fmap_app. simpl. unfold upper_point, lower_point. by rewrite Hi.
Qed.

Lemma scan_fold_pixels (l : list Z) :
  ∀ st, foldl step (pixels st) l =
        pixels (foldl index_step st (omap (sample_at result) l)).
Proof.
  induction l as [|i l IH]; intros st; [done|]. simpl.
  destruct (sample_at result i) as [s|] eqn:E.
  - rewrite (scan_step_pixels st i s E). apply IH.
  - rewrite scan_step_absent by done. apply IH.
Qed.

Lemma scan_pixel_state from to :
  scan result xPixel yPixel from to =
  pixels (index_scan (visible_samples result from to)).
Proof. unfold scan. apply (scan_fold_pixels _ index_init). Qed.

Lemma draw_calls_pixels from to :
  draw_calls result xPixel yPixel from to =
  pixel_call xPixel yPixel <$> index_calls (visible_samples result from to).
Proof.
  unfold draw_calls, index_calls. rewrite scan_pixel_state. simpl.
  destruct (open_flag _); [|done]. rewrite length_fmap.
  case_bool_decide; [|done]. by rewrite fmap_app.
Qed.

Lemma rendered_pixel_call seg :
  rendered (pixel_call xPixel yPixel seg) ↔ index_rendered seg.
Proof. unfold rendered, index_rendered. simpl. by rewrite length_fmap. Qed.

Lemma filter_rendered_pixels (segs : list (index_segment num)) :
  filter rendered (pixel_call xPixel yPixel <$> segs) =
  pixel_call xPixel yPixel <$> filter index_rendered segs.
Proof.
  induction segs as [|seg segs IH]; [done|]. rewrite fmap_cons.
  rewrite !filter_cons.
  destruct (decide (rendered (pixel_call xPixel yPixel seg))) as [Hr|Hr];
    destruct (decide (index_rendered seg)) as [Hi|Hi].
  - by rewrite IH.
  - by apply rendered_pixel_call in Hr.
  - by apply rendered_pixel_call in Hi.
  - done.
Qed.

Lemma rendered_segments_pixels from to :
  rendered_segments result xPixel yPixel from to =
  pixel_call xPixel yPixel <$> rendered_index_segments result from to.
Proof.
  unfold rendered_segments, rendered_index_segments.
  by rewrite draw_calls_pixels, filter_rendered_pixels.
Qed.

Lemma elem_of_visible_samples from to s :
  s ∈ visible_samples result from to ↔
  from ≤ s_index s < to ∧
  senkou1_at result (s_index s) = Some (s_senkou1 s) ∧
  senkou2_at result (s_index s) = Some (s_senkou2 s).
Proof.
  unfold visible_samples. rewrite list_elem_of_omap. split.
  - intros (i & Hi & Hs). apply elem_of_seqZ in Hi.
    apply sample_at_Some in Hs as (<- & Ha & Hb). split; [lia|done].
  - intros (Hi & Ha & Hb). exists (s_index s). split.
    + apply elem_of_seqZ. lia.
    + by apply sample_at_Some.
Qed.

End Simulation.

(** ** The scan on indices *)

Section Chains.
Context {A : Type}.
Implicit Types (l : list (list A)) (a b : list A).

Lemma chained_nil : chained (A:=A) [].
Proof. by intros k seg1 seg2 H1. Qed.

Lemma chained_singleton a : chained [a].
Proof. intros k seg1 seg2 H1 H2. by destruct k. Qed.

Lemma chained_snoc l a b :
  chained (l ++ [a]) → is_Some (last a) → last a = head b →
  chained ((l ++ [a]) ++ [b]).
Proof.
  intros Hc Ha Hab k seg1 seg2 H1 H2.
  destruct (decide (S k < length (l ++ [a]))%nat) as [Hk|Hk].
  - rewrite lookup_app_l in H1 by lia. rewrite lookup_app_l in H2 by lia.
    by apply (Hc k).
  - apply lookup_lt_Some in H2 as Hk2. rewrite length_app in Hk2. simpl in Hk2.
    rewrite length_app in Hk, Hk2. simpl in Hk, Hk2.
    assert (k = length l) as -> by lia.
    rewrite lookup_app_l in H1 by (rewrite length_app; simpl; lia).
    rewrite list_lookup_middle in H1 by done. injection H1 as <-.
    rewrite (list_lookup_middle (l ++ [a]) [] b) in H2
      by (rewrite length_app; simpl; lia).
    by injection H2 as <-.
Qed.

Lemma chained_replace_last l a b :
  chained (l ++ [a]) → head b = head a → chained (l ++ [b]).
Proof.
  intros Hc Hab k seg1 seg2 H1 H2.
  apply lookup_lt_Some in H2 as Hk2. rewrite length_app in Hk2. simpl in Hk2.
  destruct (decide (S k < length l)%nat) as [Hk|Hk].
  - rewrite lookup_app_l in H1 by lia. rewrite lookup_app_l in H2 by lia.
    apply (Hc k); by rewrite lookup_app_l by lia.
  - assert (S k = length l) as Hk' by lia.
    rewrite lookup_app_l in H1 by lia.
    rewrite list_lookup_middle in H2 by done. injection H2 as <-.
    rewrite Hab. apply (Hc k).
    + by rewrite lookup_app_l by lia.
    + by rewrite list_lookup_middle.
Qed.

End Chains.

Section IndexScan.
Context {num : Type} `{!NumOps num}.
Implicit Types (l : list (sample num)) (s : sample num) (st : index_state num).

Lemma index_invariant_init : index_invariant [] index_init.
Proof.
  constructor; simpl; try done; try (intros; lia).
  all: try (by intros seg s Hseg%elem_of_nil).
  all: try (by intros seg Hseg%elem_of_nil).
  all: try apply chained_singleton.
Qed.

Lemma index_step_invariant l st s :
  index_invariant l st → index_invariant (l ++ [s]) (index_step st s).
Proof.
  intros [Hflag Hos Hcs Hcomp Hshort Hlong Hchain Hcol].
  destruct (last l) as [s0|] eqn:El.
  - destruct Hflag as [Hf Hlast].
    apply last_Some in El as [l0 ->].
    pose proof Hlast as [o0 Ho]%last_Some.
    unfold index_step. rewrite Hf.
    assert (Hl2 : (2 ≤ length ((l0 ++ [s0]) ++ [s]))%nat)
      by (rewrite !length_app; simpl; lia).
    case_bool_decide as Hsign; simpl.
    + assert (keep_last (open_samples st) = [s0]) as ->
        by (unfold keep_last; by rewrite Hlast).
      constructor; simpl.
      * by rewrite last_snoc.
      * intros s' Hs'. apply elem_of_cons in Hs' as [->|Hs'].
        -- apply elem_of_app. left. apply elem_of_app. right.
           by apply list_elem_of_singleton.
        -- apply elem_of_app. by right.
      * intros seg s' Hseg Hs'. apply elem_of_app in Hseg as [Hseg|Hseg].
        -- apply elem_of_app. left. by apply (Hcs seg).
        -- apply list_elem_of_singleton in Hseg as ->.
           apply elem_of_app. left. by apply Hos.
      * intros s'. rewrite (elem_of_app _ [s]), list_elem_of_singleton.
        intros [Hs'| ->].
        -- destruct (Hcomp s' Hs') as [Hopen|(seg & Hseg & Hr & Hin)].
           ++ destruct (decide (2 ≤ length (open_samples st))%nat) as [Hr|Hr].
              ** right. exists (open_samples st, sample_bullish s0).
                 split; [|done]. apply elem_of_app. right.
                 by apply list_elem_of_singleton.
              ** left. rewrite Ho in Hr, Hopen. rewrite length_app in Hr.
                 simpl in Hr. destruct o0; [|simpl in Hr; lia].
                 apply list_elem_of_singleton in Hopen as ->.
                 apply elem_of_cons. by left.
           ++ right. exists seg. split; [|done]. apply elem_of_app. by left.
        -- left. apply elem_of_cons. right. by apply list_elem_of_singleton.
      * lia.
      * done.
      * rewrite filter_app.
        destruct (decide (index_rendered (open_samples st, sample_bullish s0)))
          as [Hr|Hr].
        -- rewrite (filter_cons_True _ _ _ Hr), filter_nil, fmap_app. simpl.
           apply chained_snoc; [done|by rewrite Hlast|by rewrite Hlast].
        -- rewrite (filter_cons_False _ _ _ Hr), filter_nil, app_nil_r.
           unfold index_rendered in Hr. simpl in Hr.
           destruct (decide (2 ≤ length (l0 ++ [s0]))%nat) as [H2|H2];
             [specialize (Hlong H2); lia|].
           destruct Hshort as [-> _]; [lia|]. apply chained_singleton.
      * intros seg. rewrite elem_of_app, list_elem_of_singleton.
        intros [Hseg| ->]; [by apply Hcol|]. by exists s0.
    + constructor; simpl.
      * by rewrite !last_snoc.
      * intros s' Hs'. apply elem_of_app in Hs' as [Hs'|Hs'].
        -- apply elem_of_app. left. by apply Hos.
        -- apply elem_of_app. by right.
      * intros seg s' Hseg Hs'. apply elem_of_app. left. by apply (Hcs seg).
      * intros s'. rewrite (elem_of_app _ [s]), list_elem_of_singleton.
        intros [Hs'| ->].
        -- destruct (Hcomp s' Hs') as [Hopen|Hclosed]; [|by right].
           left. apply elem_of_app. by left.
        -- left. apply elem_of_app. right. by apply list_elem_of_singleton.
      * lia.
      * intros _. rewrite Ho, !length_app. simpl. lia.
      * apply (chained_replace_last _ (open_samples st)); [done|].
        rewrite Ho. by destruct o0.
      * done.
  - apply last_None in El as ->. subst st. unfold index_step. simpl.
    constructor; simpl; try done; try (intros; lia).
    all: try (by intros seg s' Hseg%elem_of_nil).
    all: try (by intros seg Hseg%elem_of_nil).
    all: try apply chained_singleton.
    all: try (by intros s' Hs'; left).
Qed.

Lemma index_scan_invariant l : index_invariant l (index_scan l).
Proof.
  induction l as [|s l IH] using rev_ind.
  - apply index_invariant_init.
  - unfold index_scan. rewrite foldl_snoc. by apply index_step_invariant.
Qed.

(** The flag is set as soon as one sample has been scanned. *)
Lemma index_scan_flag l :
  l ≠ [] → ∃ s, last l = Some s ∧
                open_flag (index_scan l) = Some (sample_bullish s) ∧
                last (open_samples (index_scan l)) = Some s.
Proof.
  intros Hl. pose proof (inv_flag _ _ (index_scan_invariant l)) as Hflag.
  destruct (last l) as [s|] eqn:El; [by exists s|].
  by apply last_None in El.
Qed.

Lemma index_calls_short l :
  (length l ≤ 1)%nat → filter index_rendered (index_calls l) = [].
Proof.
  intros Hl. destruct (inv_short _ _ (index_scan_invariant l) Hl) as [Hc Ho].
  unfold index_calls. rewrite Hc, Ho.
  destruct (open_flag _); [|done].
  by rewrite bool_decide_eq_false_2 by lia.
Qed.

Lemma index_calls_long l :
  (2 ≤ length l)%nat →
  ∃ s, last l = Some s ∧ last (open_samples (index_scan l)) = Some s ∧
       (2 ≤ length (open_samples (index_scan l)))%nat ∧
       index_calls l =
       closed_segments (index_scan l)
         ++ [(open_samples (index_scan l), sample_bullish s)].
Proof.
  intros Hl. pose proof (inv_long _ _ (index_scan_invariant l) Hl) as Ho.
  destruct (index_scan_flag l) as (s & Hs & Hf & Hlast).
  { intros ->. simpl in Hl. lia. }
  exists s. split; [done|]. split; [done|]. split; [done|].
  unfold index_calls. rewrite Hf. by rewrite bool_decide_eq_true_2 by lia.
Qed.

Lemma index_calls_sound l seg s :
  seg ∈ index_calls l → s ∈ fst seg → s ∈ l.
Proof.
  pose proof (index_scan_invariant l) as Hinv. unfold index_calls.
  assert (∀ cur, seg ∈ closed_segments (index_scan l)
                       ++ [(open_samples (index_scan l), cur)] →
                 s ∈ fst seg → s ∈ l) as Hfull.
  { intros cur. rewrite elem_of_app, list_elem_of_singleton.
    intros [Hseg| ->] Hs; [by apply (inv_closed_sound _ _ Hinv seg)|].
    by apply (inv_open_sound _ _ Hinv). }
  destruct (open_flag _) as [cur|]; [case_bool_decide|]; try apply (Hfull cur);
    intros Hseg Hs; by apply (inv_closed_sound _ _ Hinv seg).
Qed.

Lemma index_calls_complete l s :
  (2 ≤ length l)%nat → s ∈ l →
  ∃ seg, seg ∈ filter index_rendered (index_calls l) ∧ s ∈ fst seg.
Proof.
  intros Hl Hs. destruct (index_calls_long l Hl) as (s1 & _ & _ & Ho & ->).
  destruct (inv_complete _ _ (index_scan_invariant l) s Hs)
    as [Hopen|(seg & Hseg & Hr & Hin)].
  - exists (open_samples (index_scan l), sample_bullish s1).
    split; [|exact Hopen]. apply list_elem_of_filter.
    split; [exact Ho|]. apply elem_of_app. right. by apply list_elem_of_singleton.
  - exists seg. split; [|done]. apply list_elem_of_filter.
    split; [done|]. apply elem_of_app. by left.
Qed.

Lemma index_calls_chained l :
  chained (fst <$> filter index_rendered (index_calls l)).
Proof.
  destruct (decide (2 ≤ length l)%nat) as [Hl|Hl].
  - destruct (index_calls_long l Hl) as (s1 & _ & _ & Ho & ->).
    rewrite filter_app.
    rewrite (filter_cons_True index_rendered
               (open_samples (index_scan l), sample_bullish s1) [] Ho).
    rewrite filter_nil, fmap_app.
    apply (inv_chain _ _ (index_scan_invariant l)).
  - rewrite index_calls_short by lia. apply chained_nil.
Qed.

Lemma index_calls_color l seg :
  seg ∈ index_calls l →
  ∃ s, s ∈ l ∧ last (fst seg) = Some s ∧ snd seg = sample_bullish s.
Proof.
  intros Hseg.
  assert (∃ s, last (fst seg) = Some s ∧ snd seg = sample_bullish s)
    as (s & Hlast & Hcol).
  { pose proof (index_scan_invariant l) as Hinv. unfold index_calls in Hseg.
    destruct (open_flag (index_scan l)) as [cur|] eqn:Hf;
      [case_bool_decide as Hlen|]; try by apply (inv_color _ _ Hinv).
    apply elem_of_app in Hseg as [Hseg|Hseg]; [by apply (inv_color _ _ Hinv)|].
    apply list_elem_of_singleton in Hseg as ->. simpl.
    destruct (index_scan_flag l) as (s & _ & Hf' & Hlast).
    { intros ->. by simpl in Hf. }
    exists s. split; [done|]. congruence. }
  exists s. split; [|done].
  apply (index_calls_sound l seg); [done|]. by apply last_Some_elem_of.
Qed.

End IndexScan.

(** ** The renderer: the claims *)

Section DrawClaims.
Context {num : Type} `{!NumOps num}.
Implicit Types (result : list (IchimokuCloud num)).
Implicit Types (xPixel : Z → num) (yPixel : num → num).

Lemma head_fmap {A B : Type} (f : A → B) (l : list A) :
  head (f <$> l) = f <$> head l.
Proof. by destruct l. Qed.

Lemma drawCloudPolygon_app (ctx : list (canvas_cmd num)) p1 p2 color :
  drawCloudPolygon ctx p1 p2 color = ctx ++ drawCloudPolygon [] p1 p2 color.
Proof.
  unfold drawCloudPolygon. case_bool_decide; [by rewrite app_nil_r|].
  destruct p1; [by rewrite app_nil_r|done].
Qed.

Lemma polygon_commands_skip (c : polygon_call num) :
  ¬ rendered c → polygon_commands c = [].
Proof.
  unfold rendered, polygon_commands, drawCloudPolygon. intros Hc.
  by rewrite bool_decide_eq_true_2 by lia.
Qed.

Lemma draw_fold_commands (cs : list (polygon_call num)) :
  ∀ ctx,
    foldl (fun c p =>
             drawCloudPolygon c (call_points1 p) (call_points2 p) (call_color p))
          ctx cs =
    ctx ++ concat (polygon_commands <$> filter rendered cs).
Proof.
  induction cs as [|c cs IH]; intros ctx; simpl; [by rewrite app_nil_r|].
  rewrite IH, drawCloudPolygon_app. fold (polygon_commands c).
  rewrite filter_cons. destruct (decide (rendered c)) as [Hr|Hr].
  - rewrite fmap_cons. simpl. by rewrite app_assoc.
  - by rewrite (polygon_commands_skip c Hr), app_nil_r.
Qed.

Lemma rendered_index_segments_chained result from to :
  chained (fst <$> rendered_index_segments result from to).
Proof. apply index_calls_chained. Qed.

(** What [draw] adds to the context is what its rendered segments draw. *)
Lemma draw_commands ctx result xPixel yPixel from to :
  draw ctx result xPixel yPixel from to =
  (ctx ++ concat (polygon_commands
                    <$> rendered_segments result xPixel yPixel from to),
   false).
Proof. unfold draw, rendered_segments. by rewrite draw_fold_commands. Qed.

(** C2 (as amended).  The rendered segments are the pixel images of
    segments of present indices of the visible range: no absent pair ever
    contributes a point.  When the range holds at least two present
    indices, every present index of the range is in some rendered segment;
    when it holds at most one, nothing is rendered. *)
Theorem draw_coverage ctx result xPixel yPixel from to :
  draw ctx result xPixel yPixel from to =
    (ctx ++ concat (polygon_commands
                      <$> rendered_segments result xPixel yPixel from to),
     false) ∧
  rendered_segments result xPixel yPixel from to =
    pixel_call xPixel yPixel <$> rendered_index_segments result from to ∧
  (∀ seg s, seg ∈ rendered_index_segments result from to → s ∈ fst seg →
     from ≤ s_index s < to ∧
     senkou1_at result (s_index s) = Some (s_senkou1 s) ∧
     senkou2_at result (s_index s) = Some (s_senkou2 s)) ∧
  ((2 ≤ length (visible_samples result from to))%nat →
   ∀ i a b, from ≤ i < to →
     senkou1_at result i = Some a → senkou2_at result i = Some b →
     ∃ seg, seg ∈ rendered_index_segments result from to ∧
            mkSample i a b ∈ fst seg) ∧
  ((length (visible_samples result from to) ≤ 1)%nat →
   rendered_segments result xPixel yPixel from to = []).
Proof.
  split; [apply draw_commands|].
  split; [apply rendered_segments_pixels|]. split; [|split].
  - intros seg s Hseg Hs. apply elem_of_visible_samples.
    apply list_elem_of_filter in Hseg as [_ Hseg].
    by apply (index_calls_sound _ seg).
  - intros Hlen i a b Hi Ha Hb. apply index_calls_complete; [done|].
    by apply elem_of_visible_samples.
  - intros Hlen. rewrite rendered_segments_pixels.
    unfold rendered_index_segments. by rewrite index_calls_short.
Qed.

(** C7.  Two consecutive rendered segments share their boundary point on
    both edges: the last point of the earlier one is the first point of
    the later one.  The flag kept after a present index [i] is
    [senkou1 >= senkou2] there, and every rendered segment is filled with
    the colour of that test at the index of its last point; equal spans
    are bullish as soon as [>=] is reflexive. *)
Theorem draw_segments_continuous result xPixel yPixel from to :
  (∀ k c1 c2,
     rendered_segments result xPixel yPixel from to !! k = Some c1 →
     rendered_segments result xPixel yPixel from to !! S k = Some c2 →
     ∃ p1 p2,
       last (call_points1 c1) = Some p1 ∧ head (call_points1 c2) = Some p1 ∧
       last (call_points2 c1) = Some p2 ∧ head (call_points2 c2) = Some p2) ∧
  (∀ st i a b,
     senkou1_at result i = Some a → senkou2_at result i = Some b →
     currentIsBullish (scan_step result xPixel yPixel st i) = Some (ge a b)) ∧
  (∀ c, c ∈ rendered_segments result xPixel yPixel from to →
     ∃ i a b,
       from ≤ i < to ∧
       senkou1_at result i = Some a ∧ senkou2_at result i = Some b ∧
       last (call_points1 c) = Some (mkCoordinate (xPixel i) (yPixel a)) ∧
       last (call_points2 c) = Some (mkCoordinate (xPixel i) (yPixel b)) ∧
       call_color c = (if ge a b then bullishColor else bearishColor) ∧
       ((∀ v : num, ge v v = true) → a = b → call_color c = bullishColor)).
Proof.
  split; [|split].
  - intros k c1 c2. rewrite rendered_segments_pixels, !list_lookup_fmap.
    destruct (rendered_index_segments result from to !! k) as [seg1|] eqn:E1;
      [|done].
    destruct (rendered_index_segments result from to !! S k) as [seg2|] eqn:E2;
      [|done].
    simpl. intros [= <-] [= <-].
    destruct (rendered_index_segments_chained result from to
                k (fst seg1) (fst seg2)) as [[s Hs] Hlink].
    { by rewrite list_lookup_fmap, E1. }
    { by rewrite list_lookup_fmap, E2. }
    exists (upper_point xPixel yPixel s), (lower_point xPixel yPixel s).
    simpl. rewrite !fmap_last, !head_fmap, <- Hlink, Hs. done.
  - intros st i a b Ha Hb. unfold scan_step. by rewrite Ha, Hb.
  - intros c. rewrite rendered_segments_pixels.
    intros (seg & -> & Hseg)%list_elem_of_fmap.
    apply list_elem_of_filter in Hseg as [_ Hseg].
    destruct (index_calls_color _ seg Hseg) as (s & Hs & Hlast & Hcol).
    apply elem_of_visible_samples in Hs as (Hi & Ha & Hb).
    exists (s_index s), (s_senkou1 s), (s_senkou2 s).
    split; [done|]. split; [done|]. split; [done|]. simpl.
    rewrite !fmap_last, Hlast, Hcol. simpl.
    split; [done|]. split; [done|]. split; [done|].
    intros Hrefl Hab. unfold sample_bullish, color_of.
    by rewrite Hab, Hrefl.
Qed.

(** C8.  An index where a span is absent leaves the whole scan state as it
    is: edge lists, flag and calls.  A call to [drawCloudPolygon] inside
    the loop happens only at a present index whose sign differs from the
    open segment's flag; at a present index of the same sign the pair is
    appended to the open segment, whatever gap came before; so a scan is
    the scan of its present indices alone. *)
Theorem scan_gap_keeps_segment result xPixel yPixel :
  (∀ st i,
     senkou1_at result i = None ∨ senkou2_at result i = None →
     scan_step result xPixel yPixel st i = st) ∧
  (∀ st i,
     calls (scan_step result xPixel yPixel st i) ≠ calls st →
     ∃ a b cur,
       senkou1_at result i = Some a ∧ senkou2_at result i = Some b ∧
       currentIsBullish st = Some cur ∧ cur ≠ ge a b) ∧
  (∀ st i a b,
     senkou1_at result i = Some a → senkou2_at result i = Some b →
     currentIsBullish st = Some (ge a b) →
     scan_step result xPixel yPixel st i =
     mkScan (points1 st ++ [mkCoordinate (xPixel i) (yPixel a)])
            (points2 st ++ [mkCoordinate (xPixel i) (yPixel b)])
            (Some (ge a b)) (calls st)) ∧
  (∀ st (l : list Z),
     foldl (scan_step result xPixel yPixel) st l =
     foldl (scan_step result xPixel yPixel) st
           (filter (fun i => is_Some (senkou1_at result i) ∧
                             is_Some (senkou2_at result i)) l)).
Proof.
  split; [|split; [|split]].
  - intros st i Habs. apply scan_step_absent. by apply sample_at_None.
  - intros st i. unfold scan_step.
    destruct (senkou1_at result i) as [a|]; [|done].
    destruct (senkou2_at result i) as [b|]; [|done].
    destruct (currentIsBullish st) as [cur|]; [|done].
    case_bool_decide; [|done]. intros _. by exists a, b, cur.
  - intros st i a b Ha Hb Hcur. unfold scan_step. rewrite Ha, Hb, Hcur.
    by rewrite bool_decide_eq_false_2 by (intros ?; done).
  - intros st l. revert st. induction l as [|i l IH]; intros st; [done|].
    rewrite filter_cons. simpl.
    destruct (decide (is_Some (senkou1_at result i) ∧
                      is_Some (senkou2_at result i))) as [Hp|Hp].
    + simpl. apply IH.
    + rewrite scan_step_absent; [apply IH|]. apply sample_at_None.
      destruct (senkou1_at result i), (senkou2_at result i); auto.
      destruct Hp. by split.
Qed.

(** C10.  At every point of the scan the two edge lists have the same
    length, and so have the two lists of every call to
    [drawCloudPolygon]; a call that passes the guard on [points1] has at
    least two points on both edges. *)
Theorem draw_edges_same_length result xPixel yPixel :
  (∀ l : list Z,
     let st := foldl (scan_step result xPixel yPixel) scan_init l in
     length (points1 st) = length (points2 st) ∧
     length (keep_last (points1 st)) = length (keep_last (points2 st)) ∧
     ∀ c, c ∈ calls st → length (call_points1 c) = length (call_points2 c)) ∧
  (∀ from to c,
     c ∈ draw_calls result xPixel yPixel from to →
     length (call_points1 c) = length (call_points2 c) ∧
     (rendered c → (2 ≤ length (call_points1 c))%nat ∧
                   (2 ≤ length (call_points2 c))%nat)).
Proof.
  split.
  - intros l.
    change scan_init with (pixel_state xPixel yPixel index_init).
    rewrite scan_fold_pixels. simpl.
    split; [by rewrite !length_fmap|]. split.
    + by rewrite !keep_last_fmap, !length_fmap.
    + intros c (seg & -> & _)%list_elem_of_fmap. simpl.
      by rewrite !length_fmap.
  - intros from to c. rewrite draw_calls_pixels.
    intros (seg & -> & _)%list_elem_of_fmap. unfold rendered. simpl.
    rewrite !length_fmap. split; [done|]. by intros Hr.
Qed.

End DrawClaims.

(** ** More on the window extrema *)

Section WindowBounds.
Context {num : Type} `{!NumOps num}.
Implicit Types (h : heap num).

Lemma pick_loop_member (R : num → num → bool) (f : KLineData num → num) h :
  ∀ (n : nat) (a : Z) (acc : num),
    0 ≤ a → a + Z.of_nat n ≤ Z.of_nat (length (dataList h)) →
    ∃ v, pick_loop R f acc (seqZ a (Z.of_nat n)) h = Ok v h ∧
         (v = acc ∨ ∃ j b, a ≤ j < a + Z.of_nat n ∧
                           getZ (dataList h) j = Some b ∧ f b = v).
Proof.
  induction n as [|n IH]; intros a acc Ha Hlen.
  - exists acc. split; [done|by left].
  - rewrite seqZ_cons by lia. unfold pick_loop. simpl.
    destruct (getZ_in_range (dataList h) a) as [b Hb]; [lia|].
    unfold bind at 1. unfold bind at 1. unfold read_data at 1. rewrite Hb.
    simpl. replace (Z.pred (Z.of_nat (S n))) with (Z.of_nat n) by lia.
    destruct (IH (Z.succ a) (if R acc (f b) then f b else acc))
      as (v & Hrun & Hv); [lia|lia|].
    exists v. split; [exact Hrun|].
    destruct Hv as [->|(j & b' & Hj & Hb' & Hv)].
    + destruct (R acc (f b)); [right|by left].
      exists a, b. split; [lia|done].
    + right. exists j, b'. split; [lia|done].
Qed.

Lemma pick_loop_past_end (R : num → num → bool) (f : KLineData num → num) h :
  ∀ (n : nat) (a : Z) (acc : num),
    0 ≤ a → Z.of_nat (length (dataList h)) ≤ a + Z.of_nat n →
    pick_loop R f acc (seqZ a (Z.of_nat (S n))) h = Throw TypeError h.
Proof.
  induction n as [|n IH]; intros a acc Ha Hlen.
  - rewrite seqZ_cons by lia. unfold pick_loop. simpl.
    unfold bind at 1. unfold bind at 1. unfold read_data at 1.
    destruct (getZ (dataList h) a) as [b|] eqn:Hb; [|done].
    apply getZ_Some_range in Hb. lia.
  - rewrite seqZ_cons by lia. unfold pick_loop. simpl.
    unfold bind at 1. unfold bind at 1. unfold read_data at 1.
    destruct (getZ (dataList h) a) as [b|] eqn:Hb; [|done]. simpl.
    replace (Z.pred (Z.of_nat (S (S n)))) with (Z.of_nat (S n)) by lia.
    apply getZ_Some_range in Hb. apply IH; lia.
Qed.

Lemma window_reads_past_end h endIndex period :
  ¬ (Z.max 0 (endIndex - period + 1) < Z.of_nat (length (dataList h)) ∧
     endIndex < Z.of_nat (length (dataList h))) →
  getHighest endIndex period h = Throw TypeError h ∧
  getLowest endIndex period h = Throw TypeError h.
Proof.
  rewrite getHighest_unfold, getLowest_unfold.
  set (s := Z.max 0 (endIndex - period + 1)).
  intros Hout. unfold bind, read_data.
  destruct (getZ (dataList h) s) as [b0|] eqn:Hb0; [|done].
  apply getZ_Some_range in Hb0.
  assert (endIndex - s = Z.of_nat (S (Z.to_nat (endIndex - s - 1)))) as ->
    by lia.
  split; apply pick_loop_past_end; lia.
Qed.

(** X6.  When the window reads stay inside the array, [getHighest] and
    [getLowest] return the high and the low of bars of the window and
    leave the heap as it is; otherwise both stop with a [TypeError], the
    heap unchanged. *)
Theorem window_reads_in_bounds h endIndex period :
  let startIndex := Z.max 0 (endIndex - period + 1) in
  let len := Z.of_nat (length (dataList h)) in
  (startIndex < len ∧ endIndex < len →
   ∃ hi lo,
     getHighest endIndex period h = Ok hi h ∧
     getLowest endIndex period h = Ok lo h ∧
     (∃ j b, startIndex ≤ j ≤ Z.max startIndex endIndex ∧
             getZ (dataList h) j = Some b ∧ high b = hi) ∧
     (∃ j b, startIndex ≤ j ≤ Z.max startIndex endIndex ∧
             getZ (dataList h) j = Some b ∧ low b = lo)) ∧
  (¬ (startIndex < len ∧ endIndex < len) →
   getHighest endIndex period h = Throw TypeError h ∧
   getLowest endIndex period h = Throw TypeError h).
Proof.
  intros s len. split; [|apply window_reads_past_end].
  rewrite getHighest_unfold, getLowest_unfold. fold s.
  intros [Hs He].
  destruct (getZ_in_range (dataList h) s) as [b0 Hb0]; [lia|].
  unfold bind, read_data. rewrite Hb0.
  destruct (pick_loop_member lt high h (Z.to_nat (endIndex - s)) (s + 1) (high b0))
    as (hi & Hhi & Hhi_in); [lia|lia|].
  destruct (pick_loop_member (fun acc v => lt v acc) low h
              (Z.to_nat (endIndex - s)) (s + 1) (low b0))
    as (lo & Hlo & Hlo_in); [lia|lia|].
  assert (seqZ (s + 1) (Z.of_nat (Z.to_nat (endIndex - s))) =
          seqZ (s + 1) (endIndex - s)) as Hseq.
  { unfold seqZ. by rewrite Nat2Z.id. }
  rewrite Hseq in Hhi, Hlo.
  exists hi, lo. split; [exact Hhi|]. split; [exact Hlo|]. split.
  - destruct Hhi_in as [->|(j & b & Hj & Hb & Hv)].
    + exists s, b0. split; [lia|done].
    + exists j, b. split; [lia|done].
  - destruct Hlo_in as [->|(j & b & Hj & Hb & Hv)].
    + exists s, b0. split; [lia|done].
    + exists j, b. split; [lia|done].
Qed.

End WindowBounds.

(** ** More on the calculator *)

Section CalcMore.
Context {num : Type} `{!NumOps num}.
Implicit Types (bars : list (KLineData num)) (h : heap num).

Lemma cloud_present_iff bars tp kp sp d r :
  valid_params tp kp sp d →
  calc_invariant bars tp kp sp d (Z.of_nat (length bars)) r →
  ∀ j, is_Some (sample_at r j) ↔
       d + Z.max tp (Z.max kp sp) - 1 ≤ j < Z.of_nat (length bars) + d.
Proof.
  intros (Ht & Hk & Hs & Hd) Hinv j.
  destruct (decide (0 ≤ j < Z.of_nat (length bars) + d)) as [Hj|Hj].
  - unfold sample_at, senkou1_at, senkou2_at.
    rewrite (calc_inv_lookup _ _ _ _ _ _ r j Hinv Hj). simpl.
    destruct (decide (d ≤ j)) as [Hdj|Hdj].
    + rewrite !bool_decide_eq_true_2 by lia.
      pose proof (line_at_defined bars tp (j - d) ltac:(lia) Ht) as Hlt.
      pose proof (line_at_defined bars kp (j - d) ltac:(lia) Hk) as Hlk.
      pose proof (line_at_defined bars sp (j - d) ltac:(lia) Hs) as Hls.
      destruct (line_at bars tp (j - d)) as [t|],
               (line_at bars kp (j - d)) as [k|],
               (line_at bars sp (j - d)) as [s|]; simpl;
        rewrite ?is_Some_alt in *; intuition lia.
    + rewrite !bool_decide_eq_false_2 by lia. simpl.
      split; [by intros [? ?]|lia].
  - unfold sample_at, senkou1_at.
    rewrite (proj2 (getZ_None_iff r j)).
    + simpl. split; [by intros [? ?]|lia].
    + destruct Hinv as [Hlen _]. lia.
Qed.

(** X2.  For valid parameters the record at an output index [j] has both
    spans, and so can contribute to the cloud, exactly when
    [displacement + max(tenkanPeriod, kijunPeriod, senkouBPeriod) - 1 <= j
     < L + displacement]. *)
Theorem calc_cloud_start bars tp kp sp d :
  valid_params tp kp sp d →
  ∃ r h', run_calc bars tp kp sp d = Ok r h' ∧
    ∀ j, is_Some (sample_at r j) ↔
         d + Z.max tp (Z.max kp sp) - 1 ≤ j < Z.of_nat (length bars) + d.
Proof.
  intros Hvalid.
  destruct (calc_closed_form bars tp kp sp d Hvalid) as (r & Hrun & Hinv).
  exists r, (mkHeap bars r). split; [done|]. by apply cloud_present_iff.
Qed.

(** *** Running twice *)

Lemma calc_depends_on_bars tp kp sp d h1 h2 :
  dataList h1 = dataList h2 → calc tp kp sp d h1 = calc tp kp sp d h2.
Proof.
  intros Hd. unfold calc.
  unfold bind at 1. unfold data_length at 1.
  unfold bind at 1. unfold new_result at 1.
  symmetry.
  unfold bind at 1. unfold data_length at 1.
  unfold bind at 1. unfold new_result at 1.
  by rewrite Hd.
Qed.

(** X4.  [calc] starts from a fresh array, so its outcome depends on the
    bars alone, whatever the result array held; and a second call on the
    heap the first one left returns the same array and leaves the same
    heap. *)
Theorem calc_rerun tp kp sp d h r h' :
  calc tp kp sp d h = Ok r h' →
  calc tp kp sp d h' = Ok r h' ∧
  ∀ r0, calc tp kp sp d (mkHeap (dataList h) r0) = Ok r h'.
Proof.
  intros Hrun. pose proof (keeps_data_calc tp kp sp d h) as Hkeep.
  rewrite Hrun in Hkeep. simpl in Hkeep. split.
  - by rewrite (calc_depends_on_bars tp kp sp d h' h Hkeep).
  - intros r0.
    by rewrite (calc_depends_on_bars tp kp sp d (mkHeap (dataList h) r0) h eq_refl).
Qed.

(** *** When the call returns *)

Lemma keeps_shape_ret {A : Type} (a : A) : keeps_shape (ret (num:=num) a).
Proof. by intros h a' h' [= _ <-]. Qed.

Lemma keeps_shape_bind {A B : Type} (m : M num A) (k : A → M num B) :
  keeps_shape m → (∀ a, keeps_shape (k a)) → keeps_shape (bind m k).
Proof.
  intros Hm Hk h b h'. unfold bind.
  destruct (m h) as [a h1|e h1] eqn:E; [|done]. intros Hrun.
  destruct (Hm h a h1 E) as [Hd1 Hl1].
  destruct (Hk a h1 b h' Hrun) as [Hd2 Hl2]. split; congruence.
Qed.

Lemma keeps_shape_when (b : bool) (m : M num unit) :
  keeps_shape m → keeps_shape (when b m).
Proof. destruct b; [done|]. intros _. apply keeps_shape_ret. Qed.

Lemma keeps_shape_foldM {A S : Type} (body : S → A → M num S) (l : list A) :
  (∀ s a, keeps_shape (body s a)) → ∀ s, keeps_shape (foldM body s l).
Proof.
  intros Hb. induction l as [|a l IH]; intros s; simpl.
  - apply keeps_shape_ret.
  - apply keeps_shape_bind; [apply Hb|]. intros s'. apply IH.
Qed.

Lemma keeps_shape_reads {A : Type} (m : M num A) :
  reads_only m → keeps_shape m.
Proof.
  intros Hm h a h'. rewrite (Hm h). destruct (pure_of _ _); [|done].
  by intros [= _ <-].
Qed.

Lemma keeps_shape_read_result i : keeps_shape (read_result (num:=num) i).
Proof.
  intros h a h'. unfold read_result. destruct (getZ _ _); [|done].
  by intros [= _ <-].
Qed.

Lemma keeps_shape_write_result i f : keeps_shape (write_result (num:=num) i f).
Proof.
  intros h a h'. unfold write_result. destruct (getZ _ _); [|done].
  intros [= _ <-]. simpl. by rewrite length_alterZ.
Qed.

Lemma keeps_shape_line_stage b i period j
    (setter : num → IchimokuCloud num → IchimokuCloud num) :
  keeps_shape (when b (v <- midpoint i period ;; write_result j (setter v))).
Proof.
  apply keeps_shape_when, keeps_shape_bind.
  - apply keeps_shape_reads, reads_only_midpoint.
  - intros v. apply keeps_shape_write_result.
Qed.

Lemma keeps_shape_senkou1_stage (p : IchimokuCloud num) j :
  keeps_shape match tenkan p, kijun p with
              | Some t, Some k =>
                  write_result j (set_senkou1 (div (add t k) two))
              | _, _ => ret tt
              end.
Proof.
  destruct (tenkan p), (kijun p);
    first [apply keeps_shape_write_result | apply keeps_shape_ret].
Qed.

Lemma keeps_shape_calc_body tp kp sp d i b : keeps_shape (calc_body tp kp sp d i b).
Proof.
  unfold calc_body.
  apply keeps_shape_bind; [apply keeps_shape_line_stage|intros _].
  apply keeps_shape_bind; [apply keeps_shape_line_stage|intros _].
  apply keeps_shape_bind; [apply keeps_shape_read_result|intros p].
  apply keeps_shape_bind; [apply keeps_shape_senkou1_stage|intros _].
  apply keeps_shape_bind; [apply keeps_shape_line_stage|intros _].
  apply keeps_shape_when, keeps_shape_write_result.
Qed.

Lemma fails_on_bind_l {A B : Type} bars n (m : M num A) (k : A → M num B) :
  fails_on bars n m → fails_on bars n (bind m k).
Proof.
  intros Hm h Hd Hl. specialize (Hm h Hd Hl). unfold bind.
  by destruct (m h).
Qed.

Lemma fails_on_bind_r {A B : Type} bars n (m : M num A) (k : A → M num B) :
  keeps_shape m → (∀ a, fails_on bars n (k a)) → fails_on bars n (bind m k).
Proof.
  intros Hm Hk h Hd Hl. unfold bind.
  destruct (m h) as [a h1|e h1] eqn:E; [|done].
  destruct (Hm h a h1 E) as [Hd1 Hl1]. apply Hk; congruence.
Qed.

Lemma fails_on_foldM {A S : Type} bars n (body : S → A → M num S) (l : list A) x :
  (∀ s a, keeps_shape (body s a)) → x ∈ l → (∀ s, fails_on bars n (body s x)) →
  ∀ s, fails_on bars n (foldM body s l).
Proof.
  intros Hkeep Hx Hfail. induction l as [|a l IH]; intros s.
  - by apply elem_of_nil in Hx.
  - simpl. apply elem_of_cons in Hx as [<-|Hx].
    + apply fails_on_bind_l, Hfail.
    + apply fails_on_bind_r; [apply Hkeep|]. intros s'. by apply IH.
Qed.

(** A window read for the last bar with a period below one starts past the
    end of the array. *)
Lemma midpoint_fails_last bars n period i :
  i = Z.of_nat (length bars) - 1 → 0 ≤ i → period ≤ 0 →
  fails_on bars n (midpoint i period).
Proof.
  intros Hi Hi0 Hp h Hd Hl. unfold midpoint. unfold bind at 1.
  destruct (window_reads_past_end h i period) as [Hhi _]; [rewrite Hd; lia|].
  by rewrite Hhi.
Qed.

Lemma line_stage_fails_last bars n period i j
    (setter : num → IchimokuCloud num → IchimokuCloud num) :
  i = Z.of_nat (length bars) - 1 → 0 ≤ i → period ≤ 0 →
  fails_on bars n (when (bool_decide (period - 1 ≤ i))
                        (v <- midpoint i period ;; write_result j (setter v))).
Proof.
  intros Hi Hi0 Hp. rewrite bool_decide_eq_true_2 by lia. simpl.
  by apply fails_on_bind_l, midpoint_fails_last.
Qed.

Lemma calc_body_fails_last bars tp kp sp d b :
  bars ≠ [] → ¬ valid_params tp kp sp d →
  fails_on bars (Z.to_nat (Z.of_nat (length bars) + d))
           (calc_body tp kp sp d (Z.of_nat (length bars) - 1) b).
Proof.
  intros Hne Hinvalid.
  assert (1 ≤ Z.of_nat (length bars)) as Hlen
    by (destruct bars; [done|simpl; lia]).
  set (i := Z.of_nat (length bars) - 1).
  unfold calc_body.
  destruct (decide (tp ≤ 0)) as [Ht|Ht].
  { by apply fails_on_bind_l, line_stage_fails_last; try lia. }
  apply fails_on_bind_r; [apply keeps_shape_line_stage|intros _].
  destruct (decide (kp ≤ 0)) as [Hk|Hk].
  { by apply fails_on_bind_l, line_stage_fails_last; try lia. }
  apply fails_on_bind_r; [apply keeps_shape_line_stage|intros _].
  apply fails_on_bind_r; [apply keeps_shape_read_result|intros p].
  apply fails_on_bind_r; [apply keeps_shape_senkou1_stage|intros _].
  destruct (decide (sp ≤ 0)) as [Hs|Hs].
  { by apply fails_on_bind_l, line_stage_fails_last; try lia. }
  apply fails_on_bind_r; [apply keeps_shape_line_stage|intros _].
  assert (d < 0) as Hd by (unfold valid_params in Hinvalid; lia).
  intros h Hdata Hl. rewrite bool_decide_eq_true_2 by (subst i; lia). simpl.
  unfold write_result.
  rewrite (proj2 (getZ_None_iff (result h) (i - d))); [done|].
  rewrite Hl. subst i. lia.
Qed.

(** X3.  [calc] returns exactly when the input is empty or the periods are
    at least one and the displacement at least zero.  On an empty input it
    returns [max(0, displacement)] empty records whatever the parameters;
    in every other case it stops with a [TypeError]. *)
Theorem calc_returns_iff bars tp kp sp d :
  ((∃ r h', run_calc bars tp kp sp d = Ok r h') ↔
   bars = [] ∨ valid_params tp kp sp d) ∧
  (bars = [] →
   value_of (run_calc bars tp kp sp d) = Some (replicate (Z.to_nat d) empty_point)) ∧
  (bars ≠ [] → ¬ valid_params tp kp sp d →
   ∃ h', run_calc bars tp kp sp d = Throw TypeError h').
Proof.
  assert (Hempty : value_of (run_calc (num:=num) [] tp kp sp d) =
                   Some (replicate (Z.to_nat d) empty_point)).
  { unfold run_calc, calc.
    unfold bind at 1. unfold data_length at 1. simpl.
    unfold bind at 1. unfold new_result at 1. simpl.
    unfold bind at 1. rewrite push_loop. simpl. by rewrite length_seqZ. }
  assert (Hthrow : bars ≠ [] → ¬ valid_params tp kp sp d →
                   ∃ h', run_calc bars tp kp sp d = Throw TypeError h').
  { intros Hne Hinvalid.
    assert (value_of (run_calc bars tp kp sp d) = None) as Hnone.
    { unfold run_calc, calc.
      unfold bind at 1. unfold data_length at 1. simpl.
      unfold bind at 1. unfold new_result at 1. simpl.
      unfold bind at 1. rewrite push_loop. simpl. rewrite length_seqZ.
      apply (fails_on_bind_l bars (Z.to_nat (Z.of_nat (length bars) + d)));
        [|done|simpl; by rewrite length_replicate].
      intros h Hdata Hl. unfold forEach_data. rewrite Hdata.
      destruct (last bars) as [b|] eqn:Hlast; [|by apply last_None in Hlast].
      refine (fails_on_foldM bars (Z.to_nat (Z.of_nat (length bars) + d)) _ _
                (pred (length bars), b) _ _ _ tt h Hdata Hl).
      - intros _ ib. apply keeps_shape_calc_body.
      - apply list_elem_of_lookup. exists (pred (length bars)).
        rewrite list_lookup_imap. rewrite last_lookup in Hlast. by rewrite Hlast.
      - intros _. simpl.
        replace (Z.of_nat (pred (length bars))) with (Z.of_nat (length bars) - 1)
          by (destruct bars; [done|simpl; lia]).
        by apply calc_body_fails_last. }
    destruct (run_calc bars tp kp sp d) as [r h'|e h'] eqn:E; [done|].
    exists h'. by rewrite (type_errors_only_calc tp kp sp d _ e h' E). }
  split; [|split; [by intros ->|done]].
  split.
  - intros (r & h' & Hrun).
    destruct (decide (bars = [])) as [?|Hne]; [by left|]. right.
    destruct (decide (valid_params tp kp sp d)) as [?|Hinvalid]; [done|].
    destruct (Hthrow Hne Hinvalid) as [h'' Hthrow']. congruence.
  - intros [->|Hvalid].
    + destruct (run_calc (num:=num) [] tp kp sp d) as [r h'|] eqn:E; [|done].
      by exists r, h'.
    + destruct (calc_closed_form bars tp kp sp d Hvalid) as (r & Hrun & _).
      by exists r, (mkHeap bars r).
Qed.

(** *** Appending bars *)

Lemma getZ_app_l {A : Type} (l more : list A) i :
  0 ≤ i < Z.of_nat (length l) → getZ (l ++ more) i = getZ l i.
Proof.
  intros Hi. unfold getZ. case_decide; [|done]. apply lookup_app_l. lia.
Qed.

Lemma pick_loop_cons (R : num → num → bool) (f : KLineData num → num)
    acc i (l : list Z) h b :
  getZ (dataList h) i = Some b →
  pick_loop R f acc (i :: l) h =
  pick_loop R f (if R acc (f b) then f b else acc) l h.
Proof.
  intros Hb. unfold pick_loop. simpl. unfold bind at 1. unfold bind at 1.
  unfold read_data at 1. by rewrite Hb.
Qed.

Lemma pick_loop_more (R : num → num → bool) (f : KLineData num → num) bars more :
  ∀ (n : nat) (a : Z) (acc : num),
    0 ≤ a → a + Z.of_nat n ≤ Z.of_nat (length bars) →
    pure_of (pick_loop R f acc (seqZ a (Z.of_nat n))) (bars ++ more) =
    pure_of (pick_loop R f acc (seqZ a (Z.of_nat n))) bars.
Proof.
  unfold pure_of. induction n as [|n IH]; intros a acc Ha Hlen; [done|].
  rewrite seqZ_cons by lia.
  destruct (getZ_in_range bars a) as [b Hb]; [lia|].
  rewrite (pick_loop_cons R f acc a _ (mkHeap (bars ++ more) []) b)
    by (simpl; by rewrite getZ_app_l by lia).
  rewrite (pick_loop_cons R f acc a _ (mkHeap bars []) b) by done.
  replace (Z.pred (Z.of_nat (S n))) with (Z.of_nat n) by lia.
  apply IH; lia.
Qed.

Lemma midpoint_more bars more i p :
  0 ≤ i < Z.of_nat (length bars) → 1 ≤ p →
  pure_of (midpoint i p) (bars ++ more) = pure_of (midpoint i p) bars.
Proof.
  intros Hi Hp. set (s := Z.max 0 (i - p + 1)).
  destruct (getZ_in_range bars s) as [b0 Hb0]; [lia|].
  assert (Hhi : pure_of (getHighest i p) (bars ++ more) =
                pure_of (getHighest i p) bars).
  { rewrite getHighest_unfold. fold s. unfold pure_of, bind, read_data. simpl.
    rewrite getZ_app_l by lia. rewrite Hb0.
    pose proof (pick_loop_more lt high bars more (Z.to_nat (i - s)) (s + 1)
                  (high b0)) as Hloop.
    rewrite Z2Nat.id in Hloop by lia. apply Hloop; lia. }
  assert (Hlo : pure_of (getLowest i p) (bars ++ more) =
                pure_of (getLowest i p) bars).
  { rewrite getLowest_unfold. fold s. unfold pure_of, bind, read_data. simpl.
    rewrite getZ_app_l by lia. rewrite Hb0.
    pose proof (pick_loop_more (fun acc v => lt v acc) low bars more
                  (Z.to_nat (i - s)) (s + 1) (low b0)) as Hloop.
    rewrite Z2Nat.id in Hloop by lia. apply Hloop; lia. }
  unfold pure_of. unfold midpoint, bind.
  rewrite (reads_only_getHighest i p (mkHeap (bars ++ more) [])).
  rewrite (reads_only_getHighest i p (mkHeap bars [])). simpl. rewrite Hhi.
  destruct (pure_of (getHighest i p) bars) as [hi|]; [|done].
  rewrite (reads_only_getLowest i p (mkHeap (bars ++ more) [])).
  rewrite (reads_only_getLowest i p (mkHeap bars [])). simpl. rewrite Hlo.
  by destruct (pure_of (getLowest i p) bars).
Qed.

Lemma line_at_more bars more p j :
  0 ≤ j < Z.of_nat (length bars) → 1 ≤ p →
  line_at (bars ++ more) p j = line_at bars p j.
Proof.
  intros Hj Hp. unfold line_at. case_bool_decide; [|done].
  by apply midpoint_more.
Qed.

(** X5.  Bars appended to the input do not change what was computed from
    the earlier ones: every record of the shorter output keeps its
    [senkou1] and [senkou2], the records of the earlier bars keep their
    [tenkan] and [kijun], and a [chikou] already present keeps its value. *)
Theorem calc_append_bars bars more tp kp sp d :
  valid_params tp kp sp d →
  ∃ r r' h h',
    run_calc bars tp kp sp d = Ok r h ∧
    run_calc (bars ++ more) tp kp sp d = Ok r' h' ∧
    ∀ j p, getZ r j = Some p →
      ∃ p', getZ r' j = Some p' ∧
        senkou1 p' = senkou1 p ∧ senkou2 p' = senkou2 p ∧
        (j < Z.of_nat (length bars) →
         tenkan p' = tenkan p ∧ kijun p' = kijun p) ∧
        (∀ c, chikou p = Some c → chikou p' = Some c).
Proof.
  intros Hvalid.
  destruct (calc_closed_form bars tp kp sp d Hvalid) as (r & Hrun & Hinv).
  destruct (calc_closed_form (bars ++ more) tp kp sp d Hvalid)
    as (r' & Hrun' & Hinv').
  exists r, r', (mkHeap bars r), (mkHeap (bars ++ more) r').
  split; [done|]. split; [done|]. intros j p Hp.
  destruct Hvalid as (Ht & Hk & Hs & Hd).
  pose proof (getZ_Some_range _ _ _ Hp) as Hj.
  destruct Hinv as [Hlen Hpt]. rewrite (Hpt j p Hp).
  assert (Hlen' : Z.of_nat (length (bars ++ more)) =
                  Z.of_nat (length bars) + Z.of_nat (length more))
    by (rewrite length_app; lia).
  eexists. split.
  { apply (calc_inv_lookup _ _ _ _ _ _ r' j Hinv'). lia. }
  unfold point_after. simpl.
  split; [|split; [|split]].
  - destruct (decide (d ≤ j)) as [Hdj|Hdj].
    + rewrite !bool_decide_eq_true_2 by lia.
      by rewrite !line_at_more by lia.
    + by rewrite !bool_decide_eq_false_2 by lia.
  - destruct (decide (d ≤ j)) as [Hdj|Hdj].
    + rewrite !bool_decide_eq_true_2 by lia.
      by rewrite !line_at_more by lia.
    + by rewrite !bool_decide_eq_false_2 by lia.
  - intros HjL. rewrite !bool_decide_eq_true_2 by lia.
    by rewrite !line_at_more by lia.
  - intros c. case_bool_decide as Hc; [|done].
    rewrite bool_decide_eq_true_2 by lia.
    by rewrite getZ_app_l by lia.
Qed.

Section StrictOrder.
Hypothesis lt_irrefl : ∀ a : num, lt a a = false.
Hypothesis lt_trans : ∀ a b c : num, lt a b = true → lt b c = true → lt a c = true.

(** X1.  For valid parameters [senkou2] at an output index [j] is present
    exactly when [displacement + senkouBPeriod - 1 <= j], and it is then
    the midpoint of the highest high and the lowest low of the
    [senkouBPeriod] bars ending at bar [j - displacement]. *)
Theorem calc_senkou2 bars tp kp sp d :
  valid_params tp kp sp d →
  ∃ r h', run_calc bars tp kp sp d = Ok r h' ∧
    ∀ j, 0 ≤ j < Z.of_nat (length bars) + d →
      ∃ q, getZ r j = Some q ∧
           (is_Some (senkou2 q) ↔ d + sp - 1 ≤ j) ∧
           (∀ v, senkou2 q = Some v → window_midpoint bars (j - d) sp v).
Proof.
  intros Hvalid.
  destruct (calc_closed_form bars tp kp sp d Hvalid) as (r & Hrun & Hinv).
  exists r, (mkHeap bars r). split; [done|]. intros j Hj.
  destruct Hvalid as (_ & _ & Hs & Hd).
  eexists. split; [eapply calc_inv_lookup; [exact Hinv|lia]|].
  unfold point_after. simpl. case_bool_decide as Hdj.
  - split.
    + rewrite line_at_defined by lia. lia.
    + intros v Hv. unfold line_at in Hv. case_bool_decide; [|done].
      apply midpoint_spec; try done; lia.
  - split; [|done]. split; [by intros [? ?]|lia].
Qed.

End StrictOrder.
End CalcMore.

(** ** More on the renderer *)

Section PolygonPath.
Context {num : Type}.
Implicit Types (ctx : list (canvas_cmd num)).

Lemma path_vertices_app (c1 c2 : list (canvas_cmd num)) :
  path_vertices (c1 ++ c2) = path_vertices c1 ++ path_vertices c2.
Proof. apply omap_app. Qed.

Lemma path_vertices_lines (l : list (Coordinate num)) :
  path_vertices (map (fun q => LineTo (x q) (y q)) l) = l.
Proof.
  induction l as [|[px py] l IH]; [done|].
  simpl. unfold path_vertices in *. simpl. by rewrite IH.
Qed.

Lemma path_vertices_trace (l : list (Coordinate num)) :
  path_vertices (trace_path l) = l.
Proof.
  destruct l as [|[px py] l]; [done|]. simpl.
  pose proof (path_vertices_lines l) as Hl. unfold path_vertices in *. simpl.
  by rewrite Hl.
Qed.

Lemma length_trace_path (l : list (Coordinate num)) :
  length (trace_path l) = length l.
Proof. destruct l; [done|]. simpl. by rewrite length_map. Qed.

Lemma drawCloudPolygon_trace ctx (p1 p2 : list (Coordinate num)) color :
  (2 ≤ length p1)%nat →
  drawCloudPolygon ctx p1 p2 color =
  ctx ++ BeginPath :: trace_path (p1 ++ rev p2)
      ++ [ClosePath; FillStyle color; Fill].
Proof.
  intros Hlen. unfold drawCloudPolygon. rewrite bool_decide_eq_false_2 by lia.
  destruct p1 as [|p0 rest]; [simpl in Hlen; lia|].
  simpl. rewrite map_app, <- !app_assoc. done.
Qed.

Lemma path_vertices_drawn ctx (p1 p2 : list (Coordinate num)) color :
  (2 ≤ length p1)%nat →
  path_vertices (drawCloudPolygon ctx p1 p2 color) =
  path_vertices ctx ++ p1 ++ rev p2.
Proof.
  intros Hlen. rewrite drawCloudPolygon_trace by done.
  rewrite path_vertices_app.
  change (BeginPath :: ?l) with ([BeginPath (num:=num)] ++ l).
  rewrite !path_vertices_app, path_vertices_trace. simpl.
  by rewrite app_nil_r.
Qed.

(** X7.  With fewer than two upper points [drawCloudPolygon] leaves the
    context as it is.  Otherwise it appends one closed, filled path:
    [beginPath], a single subpath through the upper points in order and
    then the lower points in reverse, [closePath], the fill colour and
    [fill]: [length points1 + length points2 + 4] commands. *)
Theorem drawCloudPolygon_path ctx (p1 p2 : list (Coordinate num)) color :
  ((length p1 < 2)%nat → drawCloudPolygon ctx p1 p2 color = ctx) ∧
  ((2 ≤ length p1)%nat →
   drawCloudPolygon ctx p1 p2 color =
     ctx ++ BeginPath :: trace_path (p1 ++ rev p2)
         ++ [ClosePath; FillStyle color; Fill] ∧
   path_vertices (drawCloudPolygon ctx p1 p2 color) =
     path_vertices ctx ++ p1 ++ rev p2 ∧
   length (drawCloudPolygon ctx p1 p2 color) =
     (length ctx + (length p1 + length p2 + 4))%nat).
Proof.
  split.
  - intros Hlen. unfold drawCloudPolygon. by rewrite bool_decide_eq_true_2.
  - intros Hlen. split; [by apply drawCloudPolygon_trace|].
    split; [by apply path_vertices_drawn|].
    rewrite drawCloudPolygon_trace by done.
    rewrite length_app. simpl. rewrite length_app, length_trace_path.
    rewrite length_app, length_rev. simpl. lia.
Qed.

End PolygonPath.

Section DrawMore.
Context {num : Type} `{!NumOps num}.
Implicit Types (result : list (IchimokuCloud num)).
Implicit Types (xPixel : Z → num) (yPixel : num → num).
Implicit Types (l : list (sample num)) (s : sample num) (st : index_state num).

Lemma path_vertices_polygon (c : polygon_call num) :
  rendered c →
  path_vertices (polygon_commands c) = call_points1 c ++ rev (call_points2 c).
Proof.
  intros Hr. unfold polygon_commands. by rewrite path_vertices_drawn.
Qed.

(** X8.  The points [draw] goes through on the canvas are, polygon after
    polygon, the upper edge of each rendered segment followed by its lower
    edge in reverse, after whatever the context already held. *)
Theorem draw_vertices ctx result xPixel yPixel from to :
  path_vertices (fst (draw ctx result xPixel yPixel from to)) =
  path_vertices ctx ++
  concat ((fun c => call_points1 c ++ rev (call_points2 c))
            <$> rendered_segments result xPixel yPixel from to).
Proof.
  rewrite draw_commands. simpl. rewrite path_vertices_app. f_equal.
  assert (Hall : Forall rendered (rendered_segments result xPixel yPixel from to)).
  { apply Forall_forall. intros c Hc.
    by apply list_elem_of_filter in Hc as [Hr _]. }
  induction Hall as [|c cs Hc _ IH]; [done|].
  rewrite !fmap_cons. simpl. rewrite path_vertices_app, IH.
  by rewrite path_vertices_polygon.
Qed.

Lemma sample_at_in_array result i s :
  sample_at result i = Some s → 0 ≤ i < Z.of_nat (length result).
Proof.
  unfold sample_at, senkou1_at. intros Hs.
  destruct (getZ result i) as [p|] eqn:Hp; [|done].
  by apply getZ_Some_range in Hp.
Qed.

(** X9.  Only indices inside the result array and inside the visible range
    are looked at with effect: a visible range that is empty
    ([to <= from]) or lies wholly outside the array leaves the context as
    it is. *)
Theorem draw_nothing_outside ctx result xPixel yPixel from to :
  (∀ s, s ∈ visible_samples result from to →
        Z.max 0 from ≤ s_index s < Z.min to (Z.of_nat (length result))) ∧
  (to ≤ from ∨ to ≤ 0 ∨ Z.of_nat (length result) ≤ from →
   draw ctx result xPixel yPixel from to = (ctx, false)).
Proof.
  assert (Hin : ∀ s, s ∈ visible_samples result from to →
                     Z.max 0 from ≤ s_index s < Z.min to (Z.of_nat (length result))).
  { intros s Hs. unfold visible_samples in Hs.
    apply list_elem_of_omap in Hs as (i & Hi & Hs).
    apply elem_of_seqZ in Hi. pose proof (sample_at_in_array _ _ _ Hs).
    apply sample_at_Some in Hs as (-> & _). lia. }
  split; [exact Hin|]. intros Hout.
  assert (visible_samples result from to = []) as Hnil.
  { destruct (visible_samples result from to) as [|s l] eqn:E; [done|].
    specialize (Hin s ltac:(apply elem_of_cons; by left)). lia. }
  rewrite draw_commands, rendered_segments_pixels.
  unfold rendered_index_segments. rewrite Hnil. simpl. by rewrite app_nil_r.
Qed.

(** *** The shape of the segments *)

Lemma index_shape_init : index_shape (num:=num) [] index_init.
Proof.
  constructor; simpl; try done.
  all: try (by exists []).
  all: try (by intros seg Hseg%elem_of_nil).
  all: try (by intros cur s _ Hs%elem_of_nil).
  all: try (by intros seg s Hseg%elem_of_nil).
Qed.

Lemma index_step_shape l st s :
  index_invariant l st → index_shape l st →
  index_shape (l ++ [s]) (index_step st s).
Proof.
  intros Hinv [Hsuf Hblock Hosign Hcsign Halt Hlastf Hlater Holong].
  pose proof (inv_flag _ _ Hinv) as Hflag.
  assert (Hblock' : ∀ seg, seg ∈ closed_segments st →
                           ∃ l1 l2, l ++ [s] = l1 ++ fst seg ++ l2).
  { intros seg Hseg. destruct (Hblock seg Hseg) as (l1 & l2 & ->).
    exists l1, (l2 ++ [s]). by rewrite <- !app_assoc. }
  destruct (last l) as [s0|] eqn:El.
  - destruct Hflag as [Hf Hlast].
    pose proof El as [l0 Hl0]%last_Some.
    pose proof Hlast as [o0 Ho]%last_Some.
    unfold index_step. rewrite Hf.
    case_bool_decide as Hsign; simpl.
    + assert (keep_last (open_samples st) = [s0]) as ->
        by (unfold keep_last; by rewrite Hlast).
      constructor; simpl.
      * exists l0. rewrite Hl0. by rewrite <- app_assoc.
      * intros seg Hseg. apply elem_of_app in Hseg as [Hseg|Hseg].
        -- by apply Hblock'.
        -- apply list_elem_of_singleton in Hseg as ->. simpl.
           destruct Hsuf as [l1 ->]. exists l1, [s]. by rewrite <- app_assoc.
      * intros cur s' [= <-] Hs'. by apply list_elem_of_singleton in Hs' as ->.
      * intros seg s' Hseg Hs'. apply elem_of_app in Hseg as [Hseg|Hseg].
        -- by apply (Hcsign seg).
        -- apply list_elem_of_singleton in Hseg as ->. simpl in *.
           by apply Hosign.
      * intros k seg1 seg2 H1 H2.
        apply lookup_lt_Some in H2 as Hk2. rewrite length_app in Hk2.
        simpl in Hk2.
        destruct (decide (S k < length (closed_segments st))%nat) as [Hk|Hk].
        -- rewrite lookup_app_l in H1 by lia. rewrite lookup_app_l in H2 by lia.
           by apply (Halt k).
        -- assert (S k = length (closed_segments st)) as Hk' by lia.
           rewrite lookup_app_l in H1 by lia.
           rewrite list_lookup_middle in H2 by done. injection H2 as <-. simpl.
           apply (Hlastf seg1); [|done].
           rewrite last_lookup. by replace (pred (length (closed_segments st)))
             with k by lia.
      * intros seg cur. rewrite last_snoc. by intros [= <-] [= <-].
      * intros k seg Hk.
        apply lookup_lt_Some in Hk as Hk2. rewrite length_app in Hk2.
        simpl in Hk2.
        destruct (decide (S k < length (closed_segments st))%nat) as [Hlt|Hlt].
        -- rewrite lookup_app_l in Hk by lia. by apply (Hlater k).
        -- rewrite list_lookup_middle in Hk by lia. injection Hk as <-.
           apply Holong. intros Hnil. rewrite Hnil in Hk2. simpl in Hk2. lia.
      * done.
    + assert (sample_bullish s0 = sample_bullish s) as Hsame
        by (destruct (decide (sample_bullish s0 = sample_bullish s)); done).
      constructor; simpl.
      * destruct Hsuf as [l1 ->]. exists l1. by rewrite <- app_assoc.
      * exact Hblock'.
      * intros cur s' [= <-] Hs'. rewrite Ho in Hs'.
        assert (tail ((o0 ++ [s0]) ++ [s]) = tail (o0 ++ [s0]) ++ [s]) as Ht
          by (by destruct o0).
        rewrite Ht in Hs'. apply elem_of_app in Hs' as [Hs'|Hs'].
        -- rewrite <- Hsame. apply Hosign; [done|]. by rewrite Ho.
        -- by apply list_elem_of_singleton in Hs' as ->.
      * exact Hcsign.
      * exact Halt.
      * intros seg cur Hseg [= <-]. rewrite <- Hsame. by apply Hlastf.
      * exact Hlater.
      * intros Hne. specialize (Holong Hne). rewrite length_app. lia.
  - apply last_None in El as ->. subst st. unfold index_step. simpl.
    constructor; simpl; try done.
    all: try (by exists []).
    all: try (by intros seg Hseg%elem_of_nil).
    all: try (by intros cur s' _ Hs'%elem_of_nil).
    all: try (by intros seg s' Hseg%elem_of_nil).
Qed.

Lemma index_scan_shape l : index_shape l (index_scan l).
Proof.
  induction l as [|s l IH] using rev_ind.
  - apply index_shape_init.
  - unfold index_scan. rewrite foldl_snoc.
    apply index_step_shape; [apply index_scan_invariant|exact IH].
Qed.

(** The calls are the closed segments, followed by the open one when it
    is drawn at the end. *)
Lemma index_calls_cases l :
  index_calls l = closed_segments (index_scan l) ∨
  ∃ cur, open_flag (index_scan l) = Some cur ∧
         (2 ≤ length (open_samples (index_scan l)))%nat ∧
         index_calls l =
         closed_segments (index_scan l) ++ [(open_samples (index_scan l), cur)].
Proof.
  unfold index_calls. destruct (open_flag (index_scan l)) as [cur|]; [|by left].
  case_bool_decide; [|by left]. right. exists cur. split; [done|].
  split; [lia|done].
Qed.

Lemma index_calls_block l seg :
  seg ∈ index_calls l → ∃ l1 l2, l = l1 ++ fst seg ++ l2.
Proof.
  pose proof (index_scan_shape l) as Hshape.
  destruct (index_calls_cases l) as [->|(cur & _ & _ & ->)].
  - apply (shape_closed_block _ _ Hshape).
  - intros [Hseg|Hseg]%elem_of_app; [by apply (shape_closed_block _ _ Hshape)|].
    apply list_elem_of_singleton in Hseg as ->. simpl.
    destruct (shape_open_suffix _ _ Hshape) as [l1 Hl1].
    exists l1, []. by rewrite app_nil_r.
Qed.

Lemma index_calls_sign l seg s :
  seg ∈ index_calls l → s ∈ tail (fst seg) → sample_bullish s = snd seg.
Proof.
  pose proof (index_scan_shape l) as Hshape.
  destruct (index_calls_cases l) as [->|(cur & Hcur & _ & ->)].
  - apply (shape_closed_sign _ _ Hshape).
  - intros [Hseg|Hseg]%elem_of_app; [by apply (shape_closed_sign _ _ Hshape)|].
    apply list_elem_of_singleton in Hseg as ->. simpl.
    by apply (shape_open_sign _ _ Hshape).
Qed.

Lemma index_calls_alternate l k seg1 seg2 :
  index_calls l !! k = Some seg1 → index_calls l !! S k = Some seg2 →
  snd seg1 ≠ snd seg2.
Proof.
  pose proof (index_scan_shape l) as Hshape.
  destruct (index_calls_cases l) as [->|(cur & Hcur & _ & ->)].
  - apply (shape_alternate _ _ Hshape).
  - intros H1 H2.
    apply lookup_lt_Some in H2 as Hk2. rewrite length_app in Hk2. simpl in Hk2.
    destruct (decide (S k < length (closed_segments (index_scan l)))%nat)
      as [Hk|Hk].
    + rewrite lookup_app_l in H1 by lia. rewrite lookup_app_l in H2 by lia.
      by apply (shape_alternate _ _ Hshape k).
    + rewrite lookup_app_l in H1 by lia.
      rewrite list_lookup_middle in H2 by lia. injection H2 as <-. simpl.
      apply (shape_last_flag _ _ Hshape seg1); [|done].
      rewrite last_lookup.
      by replace (pred (length (closed_segments (index_scan l)))) with k by lia.
Qed.

Lemma index_calls_later_rendered l k seg :
  index_calls l !! S k = Some seg → index_rendered seg.
Proof.
  pose proof (index_scan_shape l) as Hshape.
  destruct (index_calls_cases l) as [->|(cur & Hcur & Hlen & ->)].
  - apply (shape_later_rendered _ _ Hshape).
  - intros Hk.
    apply lookup_lt_Some in Hk as Hk2. rewrite length_app in Hk2. simpl in Hk2.
    destruct (decide (S k < length (closed_segments (index_scan l)))%nat)
      as [Hlt|Hlt].
    + rewrite lookup_app_l in Hk by lia.
      by apply (shape_later_rendered _ _ Hshape k).
    + rewrite list_lookup_middle in Hk by lia. by injection Hk as <-.
Qed.

Lemma filter_all {A : Type} (P : A → Prop) `{!∀ a, Decision (P a)}
    (l : list A) :
  (∀ a, a ∈ l → P a) → filter P l = l.
Proof.
  induction l as [|a l IH]; intros Hl; [done|].
  rewrite filter_cons_True by (apply Hl, elem_of_cons; by left).
  rewrite IH; [done|]. intros a' Ha'. apply Hl, elem_of_cons. by right.
Qed.

Lemma filter_all_but_first {A : Type} (P : A → Prop) `{!∀ a, Decision (P a)}
    (l : list A) :
  (∀ k a, l !! S k = Some a → P a) → filter P l = l ∨ filter P l = tail l.
Proof.
  intros Hl. destruct l as [|a0 l]; [by left|].
  assert (filter P l = l) as Hrest.
  { apply filter_all. intros a Ha.
    apply list_elem_of_lookup in Ha as [k Hk]. by apply (Hl k). }
  rewrite filter_cons. destruct (decide (P a0)); rewrite Hrest; [by left|by right].
Qed.

Lemma color_of_inj b1 b2 : color_of b1 = color_of b2 → b1 = b2.
Proof. by destruct b1, b2. Qed.

Lemma visible_samples_increasing result :
  ∀ (n : nat) (a : Z) k1 k2 s1 s2,
    (k1 < k2)%nat →
    omap (sample_at result) (seqZ a (Z.of_nat n)) !! k1 = Some s1 →
    omap (sample_at result) (seqZ a (Z.of_nat n)) !! k2 = Some s2 →
    s_index s1 < s_index s2.
Proof.
  induction n as [|n IH]; intros a k1 k2 s1 s2 Hk H1 H2; [done|].
  rewrite seqZ_cons in H1, H2 by lia.
  replace (Z.pred (Z.of_nat (S n))) with (Z.of_nat n) in H1, H2 by lia.
  simpl in H1, H2.
  destruct (sample_at result a) as [s|] eqn:Es; [|by apply (IH (Z.succ a) k1 k2)].
  destruct k2 as [|k2]; [lia|]. simpl in H2.
  destruct k1 as [|k1]; simpl in H1.
  - injection H1 as <-. apply sample_at_Some in Es as (-> & _).
    apply list_elem_of_lookup_2, list_elem_of_omap in H2 as (i & Hi & Hs2).
    apply elem_of_seqZ in Hi. apply sample_at_Some in Hs2 as (-> & _). lia.
  - apply (IH (Z.succ a) k1 k2); [lia|done|done].
Qed.

(** X10.  Every call to [drawCloudPolygon] gets a block of consecutive
    present indices of the visible range, in scan order: its edges are
    the pixel images of samples that follow one another, with no present
    index skipped, and their indices grow along the edge. *)
Theorem draw_segments_contiguous result xPixel yPixel from to :
  draw_calls result xPixel yPixel from to =
    pixel_call xPixel yPixel <$> index_calls (visible_samples result from to) ∧
  (∀ seg, seg ∈ index_calls (visible_samples result from to) →
     ∃ l1 l2, visible_samples result from to = l1 ++ fst seg ++ l2) ∧
  (∀ k1 k2 s1 s2, (k1 < k2)%nat →
     visible_samples result from to !! k1 = Some s1 →
     visible_samples result from to !! k2 = Some s2 →
     s_index s1 < s_index s2).
Proof.
  split; [apply draw_calls_pixels|]. split.
  - intros seg. apply index_calls_block.
  - unfold visible_samples. unfold seqZ at 1 2.
    pose proof (visible_samples_increasing result (Z.to_nat (to - from)) from)
      as Hinc.
    unfold seqZ in Hinc at 1 2. rewrite Nat2Z.id in Hinc. exact Hinc.
Qed.

(** X11.  After its first point, every segment handed to [drawCloudPolygon]
    holds only points whose sign is the one of its colour. *)
Theorem draw_segment_signs result xPixel yPixel from to :
  draw_calls result xPixel yPixel from to =
    pixel_call xPixel yPixel <$> index_calls (visible_samples result from to) ∧
  ∀ seg, seg ∈ index_calls (visible_samples result from to) →
    call_color (pixel_call xPixel yPixel seg) =
      (if snd seg then bullishColor else bearishColor) ∧
    ∀ s, s ∈ tail (fst seg) → ge (s_senkou1 s) (s_senkou2 s) = snd seg.
Proof.
  split; [apply draw_calls_pixels|]. intros seg Hseg. split; [done|].
  intros s Hs.
  exact (index_calls_sign (visible_samples result from to) seg s Hseg Hs).
Qed.

(** X12.  The colours alternate: two consecutive calls to [drawCloudPolygon],
    and two consecutive rendered segments, never have the same colour. *)
Theorem draw_colours_alternate result xPixel yPixel from to :
  (∀ k c1 c2,
     draw_calls result xPixel yPixel from to !! k = Some c1 →
     draw_calls result xPixel yPixel from to !! S k = Some c2 →
     call_color c1 ≠ call_color c2) ∧
  (∀ k c1 c2,
     rendered_segments result xPixel yPixel from to !! k = Some c1 →
     rendered_segments result xPixel yPixel from to !! S k = Some c2 →
     call_color c1 ≠ call_color c2).
Proof.
  assert (Hcalls : ∀ k c1 c2,
            draw_calls result xPixel yPixel from to !! k = Some c1 →
            draw_calls result xPixel yPixel from to !! S k = Some c2 →
            call_color c1 ≠ call_color c2).
  { intros k c1 c2. rewrite draw_calls_pixels, !list_lookup_fmap.
    destruct (index_calls (visible_samples result from to) !! k)
      as [seg1|] eqn:E1; [|done].
    destruct (index_calls (visible_samples result from to) !! S k)
      as [seg2|] eqn:E2; [|done].
    simpl. intros [= <-] [= <-] Hcol. simpl in Hcol.
    apply color_of_inj in Hcol.
    exact (index_calls_alternate _ k seg1 seg2 E1 E2 Hcol). }
  split; [exact Hcalls|]. intros k c1 c2.
  unfold rendered_segments.
  destruct (filter_all_but_first rendered (draw_calls result xPixel yPixel from to))
    as [->| ->].
  - intros j c. rewrite draw_calls_pixels, list_lookup_fmap.
    destruct (index_calls (visible_samples result from to) !! S j)
      as [seg|] eqn:E; [|done].
    simpl. intros [= <-]. apply rendered_pixel_call.
    exact (index_calls_later_rendered _ j seg E).
  - apply Hcalls.
  - rewrite !lookup_tail. apply Hcalls.
Qed.

End DrawMore.

(** ** The calculator and the renderer together *)

Section CalcDraw.
Context {num : Type} `{!NumOps num}.
Implicit Types (bars : list (KLineData num)).

Lemma two_members_length {A : Type} (l : list A) a b :
  a ∈ l → b ∈ l → a ≠ b → (2 ≤ length l)%nat.
Proof.
  intros Ha Hb Hab. destruct l as [|c [|c' l]]; simpl; try lia.
  - by apply elem_of_nil in Ha.
  - apply list_elem_of_singleton in Ha, Hb. congruence.
Qed.

(** X13.  Drawing what [calc] computed.  For valid parameters, with no more
    bars than the longest period nothing is ever drawn, whatever the
    visible range; with more bars than that, a visible range that covers
    the whole output draws at least one polygon. *)
Theorem cloud_needs_enough_bars bars tp kp sp d :
  valid_params tp kp sp d →
  ∃ r h', run_calc bars tp kp sp d = Ok r h' ∧
    (Z.of_nat (length bars) ≤ Z.max tp (Z.max kp sp) →
     ∀ ctx xPixel yPixel from to,
       draw ctx r xPixel yPixel from to = (ctx, false)) ∧
    (Z.max tp (Z.max kp sp) < Z.of_nat (length bars) →
     ∀ xPixel yPixel from to,
       from ≤ 0 → Z.of_nat (length bars) + d ≤ to →
       rendered_segments r xPixel yPixel from to ≠ []).
Proof.
  intros Hvalid.
  destruct (calc_closed_form bars tp kp sp d Hvalid) as (r & Hrun & Hinv).
  pose proof (cloud_present_iff bars tp kp sp d r Hvalid Hinv) as Hpresent.
  exists r, (mkHeap bars r). split; [done|].
  destruct Hvalid as (Ht & Hk & Hs & Hd). split.
  - intros Hfew ctx xPixel yPixel from to.
    assert (Hshort : (length (visible_samples r from to) ≤ 1)%nat).
    { destruct (visible_samples r from to) as [|s1 [|s2 l]] eqn:E;
        simpl; try lia.
      assert (s_index s1 < s_index s2) as Hlt.
      { pose proof (visible_samples_increasing r (Z.to_nat (to - from)) from
                      0%nat 1%nat s1 s2) as Hinc.
        unfold visible_samples in E. unfold seqZ in E, Hinc.
        rewrite Nat2Z.id in Hinc. rewrite E in Hinc. apply Hinc; [lia|done|done]. }
      assert (∀ s, s ∈ visible_samples r from to → is_Some (sample_at r (s_index s)))
        as Hin.
      { intros s (_ & Ha & Hb)%elem_of_visible_samples.
        exists s. by apply sample_at_Some. }
      rewrite E in Hin.
      pose proof (proj1 (Hpresent _) (Hin s1 ltac:(apply elem_of_cons; by left))).
      pose proof (proj1 (Hpresent _)
                    (Hin s2 ltac:(apply elem_of_cons; right;
                                  apply elem_of_cons; by left))).
      lia. }
    rewrite draw_commands, rendered_segments_pixels.
    unfold rendered_index_segments. rewrite index_calls_short by done.
    simpl. by rewrite app_nil_r.
  - intros Hmany xPixel yPixel from to Hfrom Hto.
    set (j := d + Z.max tp (Z.max kp sp) - 1).
    destruct (proj2 (Hpresent j) ltac:(subst j; lia)) as [s1 Hs1].
    destruct (proj2 (Hpresent (j + 1)) ltac:(subst j; lia)) as [s2 Hs2].
    assert (s1 ∈ visible_samples r from to) as Hin1.
    { apply elem_of_visible_samples.
      apply sample_at_Some in Hs1 as (-> & Ha & Hb). split; [|done].
      subst j. lia. }
    assert (s2 ∈ visible_samples r from to) as Hin2.
    { apply elem_of_visible_samples.
      apply sample_at_Some in Hs2 as (-> & Ha & Hb). split; [|done].
      subst j. lia. }
    assert (s1 ≠ s2) as Hne.
    { intros ->. apply sample_at_Some in Hs1 as (H1 & _).
      apply sample_at_Some in Hs2 as (H2 & _). lia. }
    pose proof (two_members_length _ _ _ Hin1 Hin2 Hne) as Hlen.
    destruct (index_calls_complete _ s1 Hlen Hin1) as (seg & Hseg & _).
    rewrite rendered_segments_pixels. unfold rendered_index_segments.
    intros Hnil. apply fmap_nil_inv in Hnil. rewrite Hnil in Hseg.
    by apply elem_of_nil in Hseg.
Qed.

End CalcDraw.

(** ** Concrete runs on the rationals *)

Lemma Qlt_bool_lt (a b : Q) : Qlt_bool a b = true ↔ (a < b)%Q.
Proof.
  unfold Qlt_bool. rewrite negb_true_iff. split.
  - intros Hle. apply Qnot_le_lt. intros Hba.
    apply Qle_bool_iff in Hba. congruence.
  - intros Hlt. destruct (Qle_bool b a) eqn:E; [|done].
    apply Qle_bool_iff in E. by apply Qlt_not_le in Hlt.
Qed.

Lemma Qlt_bool_irrefl (a : Q) : lt a a = false.
Proof.
  simpl. unfold Qlt_bool. apply negb_false_iff, Qle_bool_iff, Qle_refl.
Qed.

Lemma Qlt_bool_trans (a b c : Q) : lt a b = true → lt b c = true → lt a c = true.
Proof.
  simpl. rewrite !Qlt_bool_lt. apply Qlt_trans.
Qed.


(** With a period of [0] and no bars the call returns as well; with bars it
    stops with a [TypeError] raised while reading past the last bar, after
    the result array has been allocated. *)
Example calc_zero_period_empty :
  value_of (run_calc (num:=Q) [] 0 0 0 3) = Some [empty_point; empty_point; empty_point].
Proof. vm_compute. reflexivity. Qed.

Example calc_zero_period_one_bar :
  run_calc one_bar 0 1 1 1 =
  Throw TypeError (mkHeap one_bar [empty_point; empty_point]).
Proof. vm_compute. reflexivity. Qed.

(** The flat market with the default parameters: 86 records; [tenkan]
    starts at index 8, [kijun] at 25, [senkou1] at 51 and [senkou2] at 77,
    all at 7.5; [chikou] holds the closes up to index 33. *)
Example calc_flat_market :
  match value_of (run_calc flat_bars 9 26 52 26) with
  | Some r =>
      length r = 86%nat ∧
      (getZ r 7 ≫= tenkan) = None ∧ (getZ r 8 ≫= tenkan) = Some (15 # 2)%Q ∧
      (getZ r 24 ≫= kijun) = None ∧ (getZ r 25 ≫= kijun) = Some (15 # 2)%Q ∧
      (getZ r 50 ≫= senkou1) = None ∧
      (Qeq_bool (default 0 (getZ r 51 ≫= senkou1)) (15 # 2) = true)%Q ∧
      (getZ r 76 ≫= senkou2) = None ∧ (getZ r 77 ≫= senkou2) = Some (15 # 2)%Q ∧
      (getZ r 33 ≫= chikou) = Some 7%Q ∧ (getZ r 34 ≫= chikou) = None
  | None => False
  end.
Proof. vm_compute. repeat split. Qed.


Lemma calc_output_length_witness :
  ∃ r h', run_calc example_bars 2 3 4 2 = Ok r h' ∧
          Z.of_nat (length r) = 5 + 2.
Proof.
  destruct (calc_output_length example_bars 2 3 4 2) as (r & h' & Hrun & Hlen & _).
  - unfold valid_params. lia.
  - exists r, h'. split; [exact Hrun|exact Hlen].
Defined.

Lemma calc_tenkan_kijun_witness :
  ∃ r h', run_calc example_bars 2 3 4 2 = Ok r h' ∧
    ∃ p, getZ r 2 = Some p ∧ (is_Some (tenkan p) ↔ 2 - 1 ≤ 2) ∧
         (∀ v, tenkan p = Some v → window_midpoint example_bars 2 2 v).
Proof.
  destruct (calc_tenkan_kijun Qlt_bool_irrefl Qlt_bool_trans example_bars 2 3 4 2)
    as (r & h' & Hrun & Hin & _).
  - unfold valid_params. lia.
  - exists r, h'. split; [exact Hrun|].
    destruct (Hin 2) as (p & Hp & Hten & Hval & _).
    + simpl. lia.
    + exists p. split; [exact Hp|]. split; [exact Hten|exact Hval].
Defined.

Lemma calc_senkou1_witness :
  ∃ r h', run_calc example_bars 2 3 4 2 = Ok r h' ∧
    ∃ p q, getZ r 2 = Some p ∧ getZ r (2 + 2) = Some q ∧
           (is_Some (senkou1 q) ↔ is_Some (tenkan p) ∧ is_Some (kijun p)).
Proof.
  destruct (calc_senkou1 example_bars 2 3 4 2) as (r & h' & Hrun & Hin).
  - unfold valid_params. lia.
  - exists r, h'. split; [exact Hrun|].
    destruct (Hin 2) as (p & q & Hp & Hq & Hiff & _).
    + simpl. lia.
    + exists p, q. split; [exact Hp|]. split; [exact Hq|exact Hiff].
Defined.

Lemma calc_chikou_witness :
  ∃ r h', run_calc example_bars 2 3 4 2 = Ok r h' ∧
    ∃ q, getZ r (3 - 2) = Some q ∧ chikou q = Some 10%Q.
Proof.
  destruct (calc_chikou example_bars 2 3 4 2) as (r & h' & Hrun & Hin & _).
  - unfold valid_params. lia.
  - exists r, h'. split; [exact Hrun|].
    apply (Hin 3 (mkKLineData 13 7 10)%Q); [lia|reflexivity].
Defined.

Lemma calc_keeps_bars_witness :
  ∃ r h', run_calc example_bars 2 3 4 2 = Ok r h' ∧ dataList h' = example_bars.
Proof.
  apply (proj2 (calc_keeps_bars example_bars 2 3 4 2)).
  unfold valid_params. lia.
Defined.

(** C2, counterexample.  [short_output] is what [calc] returns for the
    four bars [short_bars] with the parameters 2, 3, 4, 2.  Index 5 is in
    the visible range [0, 6) and both spans are present there, and at no
    other index; yet [draw] makes no call to [drawCloudPolygon] and issues
    no command, so no rendered segment holds index 5. *)
Lemma draw_coverage_counterexample :
  run_calc short_bars 2 3 4 2 = Ok short_output (mkHeap short_bars short_output) ∧
  (0 ≤ 5 < 6) ∧
  senkou1_at short_output 5 = Some (68 # 8)%Q ∧
  senkou2_at short_output 5 = Some (17 # 2)%Q ∧
  visible_samples short_output 0 6 = [mkSample 5 (68 # 8) (17 # 2)]%Q ∧
  draw_calls short_output example_x example_y 0 6 = [] ∧
  rendered_segments short_output example_x example_y 0 6 = [] ∧
  rendered_index_segments short_output 0 6 = [] ∧
  draw [] short_output example_x example_y 0 6 = ([], false).
Proof.
  split; [vm_compute; reflexivity|]. split; [lia|]. repeat split.
Qed.

(** The same on a hand-made array with one present index. *)
Example draw_single_point_not_drawn :
  senkou1_at lonely_result 0 = Some 1%Q ∧
  senkou2_at lonely_result 0 = Some 2%Q ∧
  draw_calls lonely_result example_x example_y 0 1 = [] ∧
  draw [] lonely_result example_x example_y 0 1 = ([], false).
Proof. repeat split. Qed.

Lemma draw_coverage_witness :
  ∃ seg, seg ∈ rendered_index_segments example_result 0 5 ∧
         mkSample 4 1%Q 5%Q ∈ fst seg.
Proof.
  pose proof (draw_coverage [] example_result example_x example_y 0 5)
    as (_ & _ & _ & Hcover & _).
  apply Hcover.
  - vm_compute. lia.
  - lia.
  - reflexivity.
  - reflexivity.
Defined.

Lemma draw_segments_continuous_witness :
  ∃ p1 p2,
    last [mkCoordinate 0 1; mkCoordinate 2 3; mkCoordinate 3 4]%Q = Some p1 ∧
    head [mkCoordinate 3 4; mkCoordinate 4 1]%Q = Some p1 ∧
    last [mkCoordinate 0 2; mkCoordinate 2 1; mkCoordinate 3 1]%Q = Some p2 ∧
    head [mkCoordinate 3 1; mkCoordinate 4 5]%Q = Some p2.
Proof.
  pose proof (draw_segments_continuous example_result example_x example_y 0 5)
    as (Hshare & _).
  apply (Hshare 0%nat
           (mkCall [mkCoordinate 0 1; mkCoordinate 2 3; mkCoordinate 3 4]%Q
                   [mkCoordinate 0 2; mkCoordinate 2 1; mkCoordinate 3 1]%Q
                   bullishColor)
           (mkCall [mkCoordinate 3 4; mkCoordinate 4 1]%Q
                   [mkCoordinate 3 1; mkCoordinate 4 5]%Q
                   bearishColor)); reflexivity.
Defined.

Lemma scan_gap_keeps_segment_witness :
  scan_step example_result example_x example_y
    (scan example_result example_x example_y 0 1) 1 =
  scan example_result example_x example_y 0 1.
Proof.
  apply (proj1 (scan_gap_keeps_segment example_result example_x example_y)).
  left. reflexivity.
Defined.

Lemma draw_edges_same_length_witness :
  length [mkCoordinate 3 4; mkCoordinate 4 1]%Q =
  length [mkCoordinate 3 1; mkCoordinate 4 5]%Q.
Proof.
  pose proof (draw_edges_same_length example_result example_x example_y)
    as (_ & Hcalls).
  apply (Hcalls 0 5 (mkCall [mkCoordinate 3 4; mkCoordinate 4 1]%Q
                            [mkCoordinate 3 1; mkCoordinate 4 5]%Q
                            bearishColor)).
  vm_compute. do 2 apply elem_of_cons, or_intror. apply elem_of_cons. by left.
Defined.

(** ** Concrete runs for the further properties *)

Lemma window_reads_in_bounds_witness :
  ∃ hi lo,
    getHighest 2 2 (mkHeap example_bars []) = Ok hi (mkHeap example_bars []) ∧
    getLowest 2 2 (mkHeap example_bars []) = Ok lo (mkHeap example_bars []).
Proof.
  destruct (proj1 (window_reads_in_bounds (mkHeap example_bars []) 2 2))
    as (hi & lo & Hhi & Hlo & _).
  - simpl. lia.
  - exists hi, lo. split; [exact Hhi|exact Hlo].
Defined.

Lemma calc_cloud_start_witness :
  ∃ r h', run_calc example_bars 2 3 4 2 = Ok r h' ∧
          (is_Some (sample_at r 5) ↔ 2 + Z.max 2 (Z.max 3 4) - 1 ≤ 5 < 5 + 2).
Proof.
  destruct (calc_cloud_start example_bars 2 3 4 2) as (r & h' & Hrun & Hiff).
  - unfold valid_params. lia.
  - exists r, h'. split; [exact Hrun|apply Hiff].
Defined.

Lemma calc_rerun_witness :
  calc 1 1 1 0
    (mkHeap one_bar
       [mkIchimokuCloud (Some (15 # 2)) (Some (15 # 2)) (Some 7) (Some (60 # 8))
                        (Some (15 # 2))]%Q) =
  Ok [mkIchimokuCloud (Some (15 # 2)) (Some (15 # 2)) (Some 7) (Some (60 # 8))
                      (Some (15 # 2))]%Q
     (mkHeap one_bar
        [mkIchimokuCloud (Some (15 # 2)) (Some (15 # 2)) (Some 7) (Some (60 # 8))
                         (Some (15 # 2))]%Q).
Proof.
  refine (proj1 (calc_rerun 1 1 1 0 (mkHeap one_bar []) _ _ _)).
  vm_compute. reflexivity.
Defined.

Lemma calc_returns_iff_witness :
  ∃ h', run_calc one_bar 0 1 1 1 = Throw TypeError h'.
Proof.
  destruct (calc_returns_iff one_bar 0 1 1 1) as (_ & _ & Hthrow).
  apply Hthrow.
  - discriminate.
  - unfold valid_params. lia.
Defined.

Lemma calc_append_bars_witness :
  ∃ r r' h h',
    run_calc example_bars 2 3 4 2 = Ok r h ∧
    run_calc (example_bars ++ one_bar) 2 3 4 2 = Ok r' h'.
Proof.
  destruct (calc_append_bars example_bars one_bar 2 3 4 2)
    as (r & r' & h & h' & Hrun & Hrun' & _).
  - unfold valid_params. lia.
  - exists r, r', h, h'. split; [exact Hrun|exact Hrun'].
Defined.

Lemma calc_senkou2_witness :
  ∃ r h', run_calc example_bars 2 3 4 2 = Ok r h' ∧
    ∃ q, getZ r 5 = Some q ∧ (is_Some (senkou2 q) ↔ 2 + 4 - 1 ≤ 5).
Proof.
  destruct (calc_senkou2 Qlt_bool_irrefl Qlt_bool_trans example_bars 2 3 4 2)
    as (r & h' & Hrun & Hin).
  - unfold valid_params. lia.
  - exists r, h'. split; [exact Hrun|].
    destruct (Hin 5) as (q & Hq & Hiff & _).
    + simpl. lia.
    + exists q. split; [exact Hq|exact Hiff].
Defined.

Lemma drawCloudPolygon_path_witness :
  path_vertices
    (drawCloudPolygon [] [mkCoordinate 3 4; mkCoordinate 4 1]%Q
                         [mkCoordinate 3 1; mkCoordinate 4 5]%Q bearishColor) =
  [mkCoordinate 3 4; mkCoordinate 4 1; mkCoordinate 4 5; mkCoordinate 3 1]%Q.
Proof.
  destruct (proj2 (drawCloudPolygon_path [] [mkCoordinate 3 4; mkCoordinate 4 1]%Q
                     [mkCoordinate 3 1; mkCoordinate 4 5]%Q bearishColor))
    as (_ & Hpath & _).
  - simpl. lia.
  - exact Hpath.
Defined.

Lemma draw_nothing_outside_witness :
  draw [] example_result example_x example_y 5 9 = ([], false).
Proof.
  apply (proj2 (draw_nothing_outside [] example_result example_x example_y 5 9)).
  right. right. simpl. lia.
Defined.

Lemma draw_segments_contiguous_witness :
  ∃ l1 l2,
    visible_samples example_result 0 5 =
    l1 ++ [mkSample 3 4 1; mkSample 4 1 5]%Q ++ l2.
Proof.
  destruct (draw_segments_contiguous example_result example_x example_y 0 5)
    as (_ & Hblock & _).
  apply (Hblock ([mkSample 3 4 1; mkSample 4 1 5]%Q, false)).
  vm_compute. do 2 apply elem_of_cons, or_intror. apply elem_of_cons. by left.
Defined.

Lemma draw_segment_signs_witness :
  ge (s_senkou1 (mkSample 4 1 5)%Q) (s_senkou2 (mkSample 4 1 5)%Q) = false.
Proof.
  destruct (draw_segment_signs example_result example_x example_y 0 5)
    as (_ & Hsign).
  destruct (Hsign ([mkSample 3 4 1; mkSample 4 1 5]%Q, false)) as (_ & Htail).
  - vm_compute. do 2 apply elem_of_cons, or_intror. apply elem_of_cons. by left.
  - apply Htail. simpl. apply elem_of_cons. by left.
Defined.

Lemma draw_colours_alternate_witness : bullishColor ≠ bearishColor.
Proof.
  destruct (draw_colours_alternate example_result example_x example_y 0 5)
    as (_ & Hrendered).
  apply (Hrendered 0%nat
           (mkCall [mkCoordinate 0 1; mkCoordinate 2 3; mkCoordinate 3 4]%Q
                   [mkCoordinate 0 2; mkCoordinate 2 1; mkCoordinate 3 1]%Q
                   bullishColor)
           (mkCall [mkCoordinate 3 4; mkCoordinate 4 1]%Q
                   [mkCoordinate 3 1; mkCoordinate 4 5]%Q
                   bearishColor)); reflexivity.
Defined.

Lemma cloud_needs_enough_bars_witness :
  ∃ r h', run_calc example_bars 2 3 4 2 = Ok r h' ∧
          rendered_segments r example_x example_y 0 7 ≠ [].
Proof.
  destruct (cloud_needs_enough_bars example_bars 2 3 4 2)
    as (r & h' & Hrun & _ & Hmany).
  - unfold valid_params. lia.
  - exists r, h'. split; [exact Hrun|].
    apply Hmany; simpl; lia.
Defined.
